(** * CodeAnalyzer: ignore-pattern matcher, tree scanner and bounded file processor

    A shallow embedding of [src/utils/ignore.ts], [src/utils/scanner.ts] and
    [src/utils/processor.ts].

    Conventions.
    - A JavaScript string is embedded as a [string]: a sequence of code units,
      of which the embedding covers the ones below 256 (Latin-1).
    - A JavaScript number that the code uses as an integer (sizes, counters,
      milliseconds) is a [Z].
    - [Deno.stat], [Deno.open], [file.read], [Deno.readTextFile], [Date.now],
      the abort signal and [globToRegExp] belong to the runtime; what they
      return is supplied by the environment (a script or a function the
      definitions take as an argument). *)

From Stdlib Require Import ZArith List String Ascii Bool Lia DecimalString.
From Stdlib Require Import Sorted Permutation.
Import ListNotations.
Local Open Scope string_scope.
Local Open Scope Z_scope.

(* ===================================================================== *)
(** * JavaScript string primitives used by the sources                    *)
(* ===================================================================== *)

Module Js.

(** ECMAScript [WhiteSpace] and [LineTerminator] code units below 256:
    TAB, LF, VT, FF, CR, SP and NBSP.  This is what [String.prototype.trim]
    removes. *)
Definition isWhiteSpace (c : ascii) : bool :=
  let n := nat_of_ascii c in
  (Nat.eqb n 9 || Nat.eqb n 10 || Nat.eqb n 11 || Nat.eqb n 12
   || Nat.eqb n 13 || Nat.eqb n 32 || Nat.eqb n 160)%bool.

Definition isEmpty (s : string) : bool :=
  match s with EmptyString => true | String _ _ => false end.

(** [s.startsWith(p)] *)
Definition startsWith (p s : string) : bool := String.prefix p s.

(** [s.slice(1)] *)
Definition slice1 (s : string) : string :=
  match s with EmptyString => EmptyString | String _ t => t end.

(** Whether the first, the last, every code unit of [s] satisfies [f]. *)
Definition firstIs (f : ascii -> bool) (s : string) : bool :=
  match s with EmptyString => false | String c _ => f c end.

Fixpoint lastIs (f : ascii -> bool) (s : string) : bool :=
  match s with
  | EmptyString => false
  | String c EmptyString => f c
  | String _ t => lastIs f t
  end.

Fixpoint allAre (f : ascii -> bool) (s : string) : bool :=
  match s with
  | EmptyString => true
  | String c t => (f c && allAre f t)%bool
  end.

Fixpoint trimStart (s : string) : string :=
  match s with
  | EmptyString => EmptyString
  | String c t => if isWhiteSpace c then trimStart t else s
  end.

Fixpoint trimEnd (s : string) : string :=
  match s with
  | EmptyString => EmptyString
  | String c t =>
      let t' := trimEnd t in
      if (isWhiteSpace c && isEmpty t')%bool then EmptyString else String c t'
  end.

(** [s.trim()] *)
Definition trim (s : string) : string := trimEnd (trimStart s).

Definition backslash : ascii := ascii_of_nat 92.
Definition slash : ascii := "/"%char.

(** [s.replace(/\\/g, '/')] *)
Fixpoint replaceBackslashes (s : string) : string :=
  match s with
  | EmptyString => EmptyString
  | String c t =>
      String (if Ascii.eqb c backslash then slash else c) (replaceBackslashes t)
  end.

(** [s.slice(n)] for [n >= 0] *)
Fixpoint drop (n : nat) (s : string) : string :=
  match n, s with
  | O, _ => s
  | S n', EmptyString => EmptyString
  | S n', String _ t => drop n' t
  end.

(** [s.replace(/^\.\/|^\//, '')]: one leading [./] or one leading [/]. *)
Definition stripLeading (s : string) : string :=
  if startsWith "./" s then drop 2 s
  else if startsWith "/" s then drop 1 s
  else s.

(** [s.replace(/\/$/, '')]: one [/] at the very end of the input. *)
Fixpoint stripTrailingSlash (s : string) : string :=
  match s with
  | EmptyString => EmptyString
  | String c t =>
      match t with
      | EmptyString => if Ascii.eqb c slash then EmptyString else s
      | String _ _ => String c (stripTrailingSlash t)
      end
  end.

(** [s.split(sep)] for a one-character separator: never the empty array. *)
Fixpoint split (sep : ascii) (s : string) : list string :=
  match s with
  | EmptyString => [EmptyString]
  | String c t =>
      if Ascii.eqb c sep then EmptyString :: split sep t
      else match split sep t with
           | [] => [String c EmptyString]
           | x :: xs => String c x :: xs
           end
  end.

(** [c.toLowerCase()] on a code unit below 256: A-Z and the Latin-1 capitals
    U+00C0..U+00DE (U+00D7, the multiplication sign, apart). *)
Definition lowerChar (c : ascii) : ascii :=
  let n := nat_of_ascii c in
  if ((Nat.leb 65 n && Nat.leb n 90)
      || (Nat.leb 192 n && Nat.leb n 222 && negb (Nat.eqb n 215)))%bool
  then ascii_of_nat (n + 32) else c.

Fixpoint toLowerCase (s : string) : string :=
  match s with
  | EmptyString => EmptyString
  | String c t => String (lowerChar c) (toLowerCase t)
  end.

(** [arr.includes(x)] on an array of strings. *)
Definition includes (arr : list string) (x : string) : bool :=
  existsb (String.eqb x) arr.

(** Template-literal rendering of an integer. *)
Definition showZ (z : Z) : string := NilZero.string_of_int (Z.to_int z).

End Js.

(* ===================================================================== *)
(** * Pattern matcher: [src/utils/ignore.ts]                              *)
(* ===================================================================== *)

Module Ignore.

(** [IgnoreOptions]: every field is optional; [None] is an absent property. *)
Record IgnoreOptions := mkIgnoreOptions {
  o_ignoreCase : option bool;
  o_allowNegation : option bool;
  o_useGitignore : option bool;
  o_extraPatterns : option (list string);
  o_customIgnoreFile : option string
}.

(** [Required<IgnoreOptions>] *)
Record RequiredOptions := mkRequiredOptions {
  ignoreCase : bool;
  allowNegation : bool;
  useGitignore : bool;
  extraPatterns : list string;
  customIgnoreFile : string
}.

Definition DEFAULT_OPTIONS : RequiredOptions :=
  {| ignoreCase := true;
     allowNegation := true;
     useGitignore := true;
     extraPatterns := [];
     customIgnoreFile := ".docsignore" |}.

Definition noOptions : IgnoreOptions :=
  mkIgnoreOptions None None None None None.

Definition orDefault {A} (o : option A) (d : A) : A :=
  match o with Some a => a | None => d end.

(** [{ ...DEFAULT_OPTIONS, ...options }] *)
Definition mergeOptions (o : IgnoreOptions) : RequiredOptions :=
  {| ignoreCase := orDefault (o_ignoreCase o) (ignoreCase DEFAULT_OPTIONS);
     allowNegation := orDefault (o_allowNegation o) (allowNegation DEFAULT_OPTIONS);
     useGitignore := orDefault (o_useGitignore o) (useGitignore DEFAULT_OPTIONS);
     extraPatterns := orDefault (o_extraPatterns o) (extraPatterns DEFAULT_OPTIONS);
     customIgnoreFile :=
       orDefault (o_customIgnoreFile o) (customIgnoreFile DEFAULT_OPTIONS) |}.

(** The value of [globToRegExp(glob, { extended, globstar, caseInsensitive })]:
    a compiled matcher is determined by the glob text and the case flag. *)
Record RegExp := mkRegExp {
  glob : string;
  caseInsensitive : bool
}.

Definition globToRegExp (normalized : string) (ci : bool) : RegExp :=
  {| glob := normalized; caseInsensitive := ci |}.

(** An element of [this.patterns]. *)
Record Rule := mkRule {
  pattern : RegExp;
  negative : bool
}.

(** The state of an [IgnorePattern] object. *)
Record IgnorePattern := mkIgnorePattern {
  patterns : list Rule;
  options : RequiredOptions
}.

(** [new IgnorePattern(options)] *)
Definition new (o : IgnoreOptions) : IgnorePattern :=
  {| patterns := []; options := mergeOptions o |}.

(** The chain [trim().replace(...).replace(...).replace(...)]. *)
Definition normalizeBody (p : string) : string :=
  Js.stripTrailingSlash (Js.stripLeading (Js.replaceBackslashes (Js.trim p))).

(** [normalizePattern(pattern)]: the pair [{ pattern, negative }]. *)
Definition normalizePattern (ig : IgnorePattern) (p : string) : string * bool :=
  if (allowNegation (options ig) && Js.startsWith "!" p)%bool
  then (normalizeBody (Js.slice1 p), true)
  else (normalizeBody p, false).

(** The [pattern] component of [normalizePattern(p)]. *)
Definition normalized (ig : IgnorePattern) (p : string) : string :=
  fst (normalizePattern ig p).

Definition notBackslash (c : ascii) : bool := negb (Ascii.eqb c Js.backslash).

(** A string on which no step of [normalizePattern] has anything to do: no
    leading [!] that would be read as a negation, no backslash, no white space
    at either end, no leading [./] or [/], no trailing [/]. *)
Definition isNormalForm (ig : IgnorePattern) (t : string) : bool :=
  (negb (allowNegation (options ig) && Js.startsWith "!" t)
   && Js.allAre notBackslash t
   && negb (Js.firstIs Js.isWhiteSpace t)
   && negb (Js.lastIs Js.isWhiteSpace t)
   && negb (Js.startsWith "./" t)
   && negb (Js.startsWith "/" t)
   && negb (Js.lastIs (Ascii.eqb Js.slash) t))%bool.

(** [addPattern(pattern)] *)
Definition addPattern (ig : IgnorePattern) (p : string) : IgnorePattern :=
  let '(normalized, neg) := normalizePattern ig p in
  if Js.isEmpty normalized then ig
  else
    let regexPattern := globToRegExp normalized (ignoreCase (options ig)) in
    {| patterns := patterns ig ++ [ {| pattern := regexPattern; negative := neg |} ];
       options := options ig |}.

(** [addPatterns(patterns)]: [forEach] in array order. *)
Definition addPatterns (ig : IgnorePattern) (ps : list string) : IgnorePattern :=
  fold_left addPattern ps ig.

Section Matching.

(** [regexp.test(s)] for a compiled glob, as the runtime decides it. *)
Variable test : RegExp -> string -> bool.

(** The [for ... of this.patterns] loop of [shouldIgnore]. *)
Definition scanRules (rules : list Rule) (normalizedPath : string) (ignored : bool)
  : bool :=
  fold_left
    (fun ignored r =>
       if test (pattern r) normalizedPath then negb (negative r) else ignored)
    rules ignored.

(** [shouldIgnore(path)] *)
Definition shouldIgnore (ig : IgnorePattern) (path : string) : bool :=
  let normalizedPath := normalized ig path in
  scanRules (patterns ig) normalizedPath false.

End Matching.

(** [content.split('\n').map(line => line.trim())
            .filter(line => line && !line.startsWith('#'))] *)
Definition ruleLines (content : string) : list string :=
  filter (fun line => (negb (Js.isEmpty line) && negb (Js.startsWith "#" line))%bool)
    (map Js.trim (Js.split (ascii_of_nat 10) content)).

(** Truthiness of an optional boolean property. *)
Definition truthy (o : option bool) : bool :=
  match o with Some b => b | None => false end.

Section Loading.

(** [Deno.readTextFile(p)]: [None] when the promise rejects (the file is
    missing or unreadable), [Some content] otherwise. *)
Variable readTextFile : string -> option string.

(** [IgnorePattern.loadFromFile(path, options)].  The read of [.gitignore]
    stands inside the [try] block that reads the primary file. *)
Definition loadFromFile (path : string) (o : IgnoreOptions) : IgnorePattern :=
  let ignore0 := new o in
  let ignore1 :=
    match o_extraPatterns o with
    | Some extra => addPatterns ignore0 extra
    | None => ignore0
    end in
  match readTextFile path with
  | Some content =>
      let ignore2 := addPatterns ignore1 (ruleLines content) in
      if truthy (o_useGitignore o) then
        match readTextFile ".gitignore" with
        | Some gitignore => addPatterns ignore2 (ruleLines gitignore)
        | None => ignore2
        end
      else ignore2
  | None => ignore1
  end.

End Loading.

End Ignore.

(* ===================================================================== *)
(** * Tree scanner: [src/utils/scanner.ts] and [IgnorePattern.filterFiles] *)
(* ===================================================================== *)

Module Scanner.

(** [arr.pop()]: the last element, [None] for [undefined]. *)
Fixpoint pop (l : list string) : option string :=
  match l with
  | [] => None
  | [x] => Some x
  | _ :: t => pop t
  end.

(** [entry.name.split('.').pop()?.toLowerCase() || ''] *)
Definition extensionOf (name : string) : string :=
  match pop (Js.split "."%char name) with
  | Some s => let e := Js.toLowerCase s in if Js.isEmpty e then "" else e
  | None => ""
  end.

(** What [walk] yields for a file, with [relative(baseDir, entry.path)] and
    the result of [Deno.stat(entry.path)] as the runtime gives them. *)
Record WalkEntry := mkWalkEntry {
  e_path : string;
  e_name : string;
  e_relative : string;
  e_size : option Z
}.

Record ScannedFile := mkScannedFile {
  path : string;
  relativePath : string;
  size : Z;
  extension : string
}.

(** The extension test of both walkers, with [ext] as computed above:
    [extensions.length > 0 && !extensions.includes(ext)]. *)
Definition rejectedByExtension (extensions : list string) (name : string) : bool :=
  (negb (Nat.eqb (List.length extensions) 0)
   && negb (Js.includes extensions (extensionOf name)))%bool.

Section Walk.

Variable test : Ignore.RegExp -> string -> bool.

(** The body of the [for await] loop of [scanDirectory]; [None] when
    [Deno.stat] rejects, which rejects the whole scan. *)
Fixpoint scanEntries (ig : Ignore.IgnorePattern) (extensions : list string)
  (entries : list WalkEntry) (files : list ScannedFile)
  : option (list ScannedFile) :=
  match entries with
  | [] => Some files
  | entry :: rest =>
      if Ignore.shouldIgnore test ig (e_relative entry) then
        scanEntries ig extensions rest files
      else
        let ext := extensionOf (e_name entry) in
        if rejectedByExtension extensions (e_name entry) then
          scanEntries ig extensions rest files
        else
          match e_size entry with
          | None => None
          | Some sz =>
              scanEntries ig extensions rest
                (files ++ [ {| path := e_path entry;
                               relativePath := e_relative entry;
                               size := sz;
                               extension := ext |} ])
          end
  end.

(** [scanDirectory(dir, { extensions, ignorePath })] over the entries that
    [walk] enumerates. *)
Definition scanDirectory (readTextFile : string -> option string)
  (ignorePath : string) (extensions : list string) (entries : list WalkEntry)
  : option (list ScannedFile) :=
  let ignorePattern := Ignore.loadFromFile readTextFile ignorePath Ignore.noOptions in
  scanEntries ignorePattern extensions entries [].

(** [IgnorePattern.filterFiles(dir, extensions)] *)
Fixpoint filterFiles (ig : Ignore.IgnorePattern) (extensions : list string)
  (entries : list WalkEntry) (files : list string) : list string :=
  match entries with
  | [] => files
  | entry :: rest =>
      if Ignore.shouldIgnore test ig (e_relative entry) then
        filterFiles ig extensions rest files
      else if rejectedByExtension extensions (e_name entry)
      then filterFiles ig extensions rest files
      else filterFiles ig extensions rest (files ++ [e_path entry])
  end.

End Walk.

End Scanner.

(* ===================================================================== *)
(** * Bounded file processor: [src/utils/processor.ts]                    *)
(* ===================================================================== *)

Module Processor.

(** ** Data model *)

(** [ProcessOptions]: [maxConcurrent] is required, the rest optional. *)
Record ProcessOptions := mkProcessOptions {
  o_maxConcurrent : Z;
  o_chunkSize : option Z;
  o_maxRetries : option Z;
  o_retryDelay : option Z;
  o_timeout : option Z;
  o_skipLargeFiles : option bool;
  o_maxFileSize : option Z;
  o_progressInterval : option Z
}.

(** [Required<ProcessOptions>] *)
Record Options := mkOptions {
  maxConcurrent : Z;
  chunkSize : Z;
  maxRetries : Z;
  retryDelay : Z;
  timeout : Z;
  skipLargeFiles : bool;
  maxFileSize : Z;
  progressInterval : Z
}.

Definition DEFAULT_OPTIONS : Options :=
  {| maxConcurrent := 5;
     chunkSize := 1024 * 1024;
     maxRetries := 3;
     retryDelay := 1000;
     timeout := 30000;
     skipLargeFiles := true;
     maxFileSize := 10 * 1024 * 1024;
     progressInterval := 1000 |}.

(** [{ ...FileProcessor.DEFAULT_OPTIONS, ...options }] *)
Definition mergeOptions (o : ProcessOptions) : Options :=
  {| maxConcurrent := o_maxConcurrent o;
     chunkSize := Ignore.orDefault (o_chunkSize o) (chunkSize DEFAULT_OPTIONS);
     maxRetries := Ignore.orDefault (o_maxRetries o) (maxRetries DEFAULT_OPTIONS);
     retryDelay := Ignore.orDefault (o_retryDelay o) (retryDelay DEFAULT_OPTIONS);
     timeout := Ignore.orDefault (o_timeout o) (timeout DEFAULT_OPTIONS);
     skipLargeFiles :=
       Ignore.orDefault (o_skipLargeFiles o) (skipLargeFiles DEFAULT_OPTIONS);
     maxFileSize := Ignore.orDefault (o_maxFileSize o) (maxFileSize DEFAULT_OPTIONS);
     progressInterval :=
       Ignore.orDefault (o_progressInterval o) (progressInterval DEFAULT_OPTIONS) |}.

Record ProcessStats := mkProcessStats {
  processed : Z;
  failed : Z;
  skipped : Z;
  totalSize : Z;
  startTime : Z;
  endTime : option Z
}.

(** A thrown [Error]: a plain one, or a [Deno.errors.NotFound]. *)
Inductive JsErr :=
| JsError (msg : string)
| NotFound (msg : string).

Definition errMessage (e : JsErr) : string :=
  match e with JsError m => m | NotFound m => m end.

Record FileError := mkFileError {
  name : string;
  message : string;
  filePath : string;
  retryCount : Z;
  cause : option JsErr
}.

(** The value of [(bytesRead / stat.size) * 100]: a quotient with a non-zero
    divisor, or what IEEE division by zero gives. *)
Inductive Percentage :=
| Percent (num den : Z)
| PercentNaN
| PercentInfinity.

Definition percentageOf (bytesRead totalBytes : Z) : Percentage :=
  if totalBytes =? 0 then
    if bytesRead =? 0 then PercentNaN else PercentInfinity
  else Percent bytesRead totalBytes.

Record FileProgress := mkFileProgress {
  fp_path : string;
  bytesRead : Z;
  totalBytes : Z;
  percentage : Percentage
}.

Record ProcessResult := mkProcessResult {
  path : string;
  content : string
}.

Inductive UpdateType := TStart | TProgress | TComplete | TError | TSkip.

Inductive UpdateData :=
| NoData
| DataContent (c : string)
| DataError (e : FileError)
| DataProgress (p : FileProgress)
| DataReason (r : string).

Record ProcessUpdate := mkProcessUpdate {
  type : UpdateType;
  u_path : string;
  data : UpdateData
}.

(** ** The processor object and the statements that change it *)

(** The [BroadcastChannel]: the messages posted so far and whether it is
    closed. *)
Record Channel := mkChannel {
  posted : list ProcessUpdate;
  closed : bool
}.

Record FileProcessor := mkFileProcessor {
  options : Options;
  stats : ProcessStats;
  updateChannel : Channel
}.

(** [initStats()] at [Date.now() = now]. *)
Definition initStats (now : Z) : ProcessStats :=
  {| processed := 0; failed := 0; skipped := 0; totalSize := 0;
     startTime := now; endTime := None |}.

(** [new FileProcessor(options)] *)
Definition constructor (o : ProcessOptions) (now : Z) : FileProcessor :=
  {| options := mergeOptions o;
     stats := initStats now;
     updateChannel := {| posted := []; closed := false |} |}.

(** The side-effecting statements of the class, in the order a run performs
    them. *)
Inductive Effect :=
| SendUpdate (u : ProcessUpdate)   (* this.sendUpdate(u) *)
| IncrProcessed                    (* this.stats.processed++ *)
| IncrFailed                       (* this.stats.failed++ *)
| Delay (ms : Z)                   (* await delay(ms) *)
| SetEndTime (now : Z)             (* this.stats.endTime = Date.now() *)
| CloseChannel.                    (* this.updateChannel.close() *)





(** ** What the runtime does during one attempt on one file *)

(** [Deno.stat(path)] *)
Inductive StatOutcome :=
| StatThrows (e : JsErr)
| StatInfo (isFile : bool) (size : Z).

(** [file.read(buffer)] when it does not resolve to [null]. *)
Inductive ReadOutcome :=
| Chunk (n : Z) (text : string)   (* n bytes, decoded as text *)
| ReadThrows (e : JsErr).

(** One iteration of the read loop that gets data. *)
Record ReadStep := mkReadStep {
  rs_aborted : bool;     (* signal.aborted at the top of the iteration *)
  rs_read : ReadOutcome;
  rs_now : Z             (* Date.now() after the chunk *)
}.

Record Attempt := mkAttempt {
  at_stat : StatOutcome;        (* Deno.stat(path) in validateFile *)
  at_open : option JsErr;       (* Deno.open(path): None when it resolves *)
  at_fstat : JsErr + Z;         (* file.stat(): the size, or what it throws *)
  at_start : Z;                 (* Date.now() before the loop *)
  at_steps : list ReadStep;     (* the reads that return data, in order *)
  at_abortedAtEnd : bool        (* signal.aborted at the iteration whose read
                                   resolves to null *)
}.

(** The result of a [try] body. *)
Inductive Try (A : Type) :=
| Returned (a : A)
| Threw (e : JsErr).
Arguments Returned {A} a.
Arguments Threw {A} e.

(** ** The per-file pipeline *)

Section Pipeline.

Variable opts : Options.

(** [validateFile(path)]: [None] when it returns, [Some e] when it throws. *)
Definition validateFile (path : string) (a : Attempt) : option JsErr :=
  match at_stat a with
  | StatThrows (NotFound _) => Some (JsError ("File not found: " ++ path))
  | StatThrows e => Some e
  | StatInfo isFile size =>
      if negb isFile then Some (JsError ("Not a file: " ++ path))
      else if (skipLargeFiles opts && (maxFileSize opts <? size))%bool
      then Some (JsError ("File too large: " ++ Js.showZ size ++ " bytes"))
      else None
  end.

Definition progressUpdate (path : string) (bytes total : Z) : ProcessUpdate :=
  {| type := TProgress;
     u_path := path;
     data := DataProgress {| fp_path := path;
                             bytesRead := bytes;
                             totalBytes := total;
                             percentage := percentageOf bytes total |} |}.

(** The [while (true)] loop of [readFileWithProgress]. *)
Fixpoint readLoop (path : string) (total : Z) (abortedAtEnd : bool)
  (steps : list ReadStep) (content : string) (bytes lastProgress : Z)
  : list Effect * Try string :=
  match steps with
  | [] =>
      if abortedAtEnd then ([], Threw (JsError "Operation aborted"))
      else ([], Returned content)
  | s :: rest =>
      if rs_aborted s then ([], Threw (JsError "Operation aborted"))
      else
        match rs_read s with
        | ReadThrows e => ([], Threw e)
        | Chunk chunk text =>
            let bytes' := bytes + chunk in
            let content' := content ++ text in
            let now := rs_now s in
            if progressInterval opts <=? now - lastProgress then
              let '(es, r) :=
                readLoop path total abortedAtEnd rest content' bytes' now in
              (SendUpdate (progressUpdate path bytes' total) :: es, r)
            else readLoop path total abortedAtEnd rest content' bytes' lastProgress
        end
  end.

(** [readFileWithProgress(path, signal)] *)
Definition readFileWithProgress (path : string) (a : Attempt)
  : list Effect * Try string :=
  match at_open a with
  | Some e => ([], Threw e)
  | None =>
      match at_fstat a with
      | inl e => ([], Threw e)
      | inr total =>
          readLoop path total (at_abortedAtEnd a) (at_steps a) "" 0 (at_start a)
      end
  end.

(** The [try] block of [processFileWithRetry]. *)
Definition attempt (path : string) (a : Attempt) : list Effect * Try string :=
  match validateFile path a with
  | Some e => ([], Threw e)
  | None =>
      let '(es, r) := readFileWithProgress path a in
      match r with
      | Threw e => (SendUpdate (mkProcessUpdate TStart path NoData) :: es, Threw e)
      | Returned content =>
          (SendUpdate (mkProcessUpdate TStart path NoData) :: es
             ++ [IncrProcessed;
                 SendUpdate (mkProcessUpdate TComplete path (DataContent content))],
           Returned content)
      end
  end.

(** How the promise of [processFileWithRetry] settles. *)
Inductive Settled :=
| Fulfilled (content : string)
| Rejected (e : FileError).

Record PipelineRun := mkPipelineRun {
  effects : list Effect;   (* in the order the pipeline performs them *)
  attempts : nat;          (* iterations of the retry loop *)
  outcome : Settled
}.

Definition before (es : list Effect) (r : PipelineRun) : PipelineRun :=
  {| effects := es ++ effects r; attempts := attempts r; outcome := outcome r |}.

Definition fileErrorOf (path : string) (retryCount : Z) (lastError : option JsErr)
  : FileError :=
  {| name := "FileProcessError";
     message := match lastError with
                | Some e => errMessage e
                | None => "Unknown error"
                end;
     filePath := path;
     retryCount := retryCount;
     cause := lastError |}.

(** The [while (retryCount <= this.options.maxRetries)] loop and what follows
    it.  [script n] is what the runtime does during the iteration that
    follows [n] earlier ones; [None] when [fuel] iterations do not end the
    loop. *)
Fixpoint retryLoop (fuel : nat) (path : string) (script : nat -> Attempt)
  (retryCount : Z) (lastError : option JsErr) (n : nat) : option PipelineRun :=
  if retryCount <=? maxRetries opts then
    match fuel with
    | O => None
    | S fuel' =>
        match attempt path (script n) with
        | (es, Returned content) =>
            Some {| effects := es; attempts := S n; outcome := Fulfilled content |}
        | (es, Threw e) =>
            let retryCount' := retryCount + 1 in
            let wait :=
              if retryCount' <=? maxRetries opts
              then [Delay (retryDelay opts * retryCount')] else [] in
            option_map (before (es ++ wait))
              (retryLoop fuel' path script retryCount' (Some e) (S n))
        end
    end
  else
    let fileError := fileErrorOf path retryCount lastError in
    Some {| effects := [IncrFailed;
                        SendUpdate (mkProcessUpdate TError path (DataError fileError))];
            attempts := n;
            outcome := Rejected fileError |}.

(** [processFileWithRetry(path)]: the loop runs at most [maxRetries + 1]
    times. *)
Definition processFileWithRetry (path : string) (script : nat -> Attempt)
  : option PipelineRun :=
  retryLoop (Z.to_nat (maxRetries opts + 1)) path script 0 None 0.

(** The delays a run awaits, in order. *)
Fixpoint delaysOf (es : list Effect) : list Z :=
  match es with
  | [] => []
  | Delay ms :: rest => ms :: delaysOf rest
  | _ :: rest => delaysOf rest
  end.

(** The updates a run sends, in order. *)
Fixpoint updatesOf (es : list Effect) : list ProcessUpdate :=
  match es with
  | [] => []
  | SendUpdate u :: rest => u :: updatesOf rest
  | _ :: rest => updatesOf rest
  end.

End Pipeline.

(** ** The generator [processFiles] *)

(** A promise returned by [processFileWithRetry]: the pipeline it stands
    for, and the instant at which it settles. *)
Record Promise := mkPromise {
  p_id : nat;                    (* the pipeline is the [p_id]-th one started *)
  p_path : string;
  p_settlesAt : Z;
  p_run : option PipelineRun     (* [None]: the pipeline never settles *)
}.

(** [Map<string, Promise<string>>]: entries in insertion order, keys unique. *)
Definition InFlight := list (string * Promise).

(** [map.set(k, v)]: a present key keeps its place and gets the new value; a
    new key goes last. *)
Fixpoint mapSet (k : string) (v : Promise) (m : InFlight) : InFlight :=
  match m with
  | [] => [(k, v)]
  | (k', v') :: rest =>
      if String.eqb k' k then (k', v) :: rest else (k', v') :: mapSet k v rest
  end.

(** [map.delete(k)] *)
Fixpoint mapDelete (k : string) (m : InFlight) : InFlight :=
  match m with
  | [] => []
  | (k', v') :: rest =>
      if String.eqb k' k then rest else (k', v') :: mapDelete k rest
  end.

(** [map.size] *)
Definition mapSize (m : InFlight) : Z := Z.of_nat (List.length m).

Definition keys (m : InFlight) : list string := map fst m.

Inductive StepKind :=
| Started (path : string)      (* inProgress.set(path, ...) *)
| Completed (path : string).   (* inProgress.delete(path) *)

(** The collections right after a statement that changes [inProgress]. *)
Record Snapshot := mkSnapshot {
  sn_kind : StepKind;
  sn_inFlight : Z;     (* inProgress.size *)
  sn_pending : nat;    (* queue.length *)
  sn_running : nat     (* pipelines started and not settled at that instant *)
}.

Record GenState := mkGenState {
  queue : list string;
  inProgress : InFlight;
  launched : list Promise;          (* every pipeline started, in start order *)
  now : Z;
  yielded : list ProcessResult;     (* what the consumer has received *)
  history : list Snapshot
}.

(** Where a run of the generator stands: [Done] after the loop has ended,
    [Suspended] while it can still go on (the consumer has not asked for more,
    or the awaited promise never settles). *)
Inductive Run :=
| Done (st : GenState)
| Suspended (st : GenState).

Definition stateOf (r : Run) : GenState :=
  match r with Done st => st | Suspended st => st end.

Definition isRunning (t : Z) (p : Promise) : bool := t <? p_settlesAt p.

Definition running (st : GenState) : nat :=
  List.length (filter (isRunning (now st)) (launched st)).

Definition snapshot (k : StepKind) (st : GenState) : Snapshot :=
  {| sn_kind := k;
     sn_inFlight := mapSize (inProgress st);
     sn_pending := List.length (queue st);
     sn_running := running st |}.

Definition record (k : StepKind) (st : GenState) : GenState :=
  {| queue := queue st; inProgress := inProgress st; launched := launched st;
     now := now st; yielded := yielded st;
     history := history st ++ [snapshot k st] |}.

Section Generator.

Variable opts : Options.

(** [world id path n]: what the runtime does during iteration [n] of the
    pipeline that is the [id]-th one started, on [path]. *)
Variable world : nat -> string -> nat -> Attempt.

(** [latency id]: how long after its start the [id]-th pipeline settles. *)
Variable latency : nat -> Z.

(** [inProgress.set(path, this.processFileWithRetry(path))] with
    [queue.shift()] already done: [rest] is the queue that remains. *)
Definition start (path : string) (rest : list string) (st : GenState) : GenState :=
  let id := List.length (launched st) in
  let promise :=
    {| p_id := id; p_path := path; p_settlesAt := now st + latency id;
       p_run := processFileWithRetry opts path (world id path) |} in
  record (Started path)
    {| queue := rest;
       inProgress := mapSet path promise (inProgress st);
       launched := launched st ++ [promise];
       now := now st;
       yielded := yielded st;
       history := history st |}.

(** The inner loop: start new tasks up to [maxConcurrent]. *)
Fixpoint refill (q : list string) (st : GenState) : GenState :=
  match q with
  | [] => st
  | path :: rest =>
      if mapSize (inProgress st) <? maxConcurrent opts
      then refill rest (start path rest st)
      else st
  end.

(** [await promise] has returned or thrown: the entry is deleted, and a
    content is yielded. *)
Definition complete (path : string) (promise : Promise) (v : Settled)
  (st : GenState) : GenState :=
  record (Completed path)
    {| queue := queue st;
       inProgress := mapDelete path (inProgress st);
       launched := launched st;
       now := Z.max (now st) (p_settlesAt promise);
       yielded := match v with
                  | Fulfilled c => yielded st ++ [ {| path := path; content := c |} ]
                  | Rejected _ => yielded st
                  end;
       history := history st |}.

(** The outer loop, for at most [fuel] iterations. *)
Fixpoint drain (fuel : nat) (st : GenState) : Run :=
  match queue st, inProgress st with
  | [], [] => Done st
  | _, _ =>
      match fuel with
      | O => Suspended st
      | S fuel' =>
          let st1 := refill (queue st) st in
          match inProgress st1 with
          | [] => drain fuel' st1
          | (path, promise) :: _ =>
              match p_run promise with
              | None => Suspended st1
              | Some r => drain fuel' (complete path promise (outcome r) st1)
              end
          end
      end
  end.

Definition initial (files : list string) (t0 : Z) : GenState :=
  {| queue := files; inProgress := []; launched := []; now := t0;
     yielded := []; history := [] |}.

(** [processFiles(files)], called at instant [t0] and driven for at most
    [fuel] iterations of its outer loop. *)
Definition processFiles (files : list string) (t0 : Z) (fuel : nat) : Run :=
  drain fuel (initial files t0).


End Generator.

End Processor.

(* ===================================================================== *)
(** * Properties of the string primitives                                 *)
(* ===================================================================== *)

Module JsFacts.
Import Js.

#[local] Arguments Ascii.eqb : simpl never.
#[local] Arguments isWhiteSpace : simpl never.

Lemma trimStart_fixed s : firstIs isWhiteSpace s = false -> trimStart s = s.
Proof.
  destruct s as [|c t]; simpl; [reflexivity|].
  intros ->. reflexivity.
Qed.

Lemma trimEnd_fixed s : lastIs isWhiteSpace s = false -> trimEnd s = s.
Proof.
  induction s as [|c t IH]; simpl; [reflexivity|].
  destruct t as [|d u].
  - simpl. intros ->. reflexivity.
  - intros H. rewrite (IH H). simpl. rewrite andb_false_r. reflexivity.
Qed.

Lemma replaceBackslashes_fixed s :
  allAre (fun c => negb (Ascii.eqb c backslash)) s = true ->
  replaceBackslashes s = s.
Proof.
  induction s as [|c t IH]; simpl; [reflexivity|].
  intros H. apply andb_prop in H. destruct H as [Hc Ht].
  rewrite (IH Ht). apply negb_true_iff in Hc. rewrite Hc. reflexivity.
Qed.

Lemma stripTrailingSlash_fixed s :
  lastIs (Ascii.eqb slash) s = false -> stripTrailingSlash s = s.
Proof.
  induction s as [|c t IH]; simpl; [reflexivity|].
  destruct t as [|d u].
  - rewrite Ascii.eqb_sym. intros ->. reflexivity.
  - intros H. rewrite (IH H). reflexivity.
Qed.

Lemma stripLeading_fixed s :
  startsWith "./" s = false -> startsWith "/" s = false -> stripLeading s = s.
Proof. unfold stripLeading. intros -> ->. reflexivity. Qed.

(** *** Lengths: no step makes a string longer, and a step that has
    something to strip makes it shorter. *)

Lemma length_trimStart s : (String.length (trimStart s) <= String.length s)%nat.
Proof.
  induction s as [|c t IH]; simpl; [lia|].
  destruct (isWhiteSpace c); simpl; lia.
Qed.

Lemma length_trimStart_lt s :
  firstIs isWhiteSpace s = true ->
  (String.length (trimStart s) < String.length s)%nat.
Proof.
  destruct s as [|c t]; simpl; [discriminate|].
  intros ->. pose proof (length_trimStart t). lia.
Qed.

Lemma length_trimEnd s : (String.length (trimEnd s) <= String.length s)%nat.
Proof.
  induction s as [|c t IH]; simpl; [lia|].
  destruct (isWhiteSpace c && isEmpty (trimEnd t))%bool; simpl; lia.
Qed.

Lemma trimEnd_empty_of_last s :
  lastIs isWhiteSpace s = true ->
  (String.length (trimEnd s) < String.length s)%nat.
Proof.
  induction s as [|c t IH]; simpl; [discriminate|].
  destruct t as [|d u].
  - simpl. intros ->. simpl. lia.
  - intros H. specialize (IH H).
    destruct (isWhiteSpace c && isEmpty (trimEnd (String d u)))%bool;
      simpl in *; lia.
Qed.

Lemma length_replaceBackslashes s :
  String.length (replaceBackslashes s) = String.length s.
Proof. induction s as [|c t IH]; simpl; [reflexivity|]. rewrite IH. reflexivity. Qed.

Lemma length_drop n s : (String.length (drop n s) <= String.length s)%nat.
Proof.
  revert s. induction n as [|n IH]; intros s; simpl; [lia|].
  destruct s as [|c t]; simpl; [lia|]. specialize (IH t). lia.
Qed.

Lemma length_stripLeading s :
  (String.length (stripLeading s) <= String.length s)%nat.
Proof.
  unfold stripLeading.
  destruct (startsWith "./" s); [apply length_drop|].
  destruct (startsWith "/" s); [apply length_drop|]. lia.
Qed.

Lemma startsWith_nonempty p c s :
  startsWith (String c p) s = true -> exists t, s = String c t.
Proof.
  unfold startsWith. destruct s as [|d t]; simpl; [discriminate|].
  destruct (Ascii.ascii_dec c d) as [->|]; [eauto | discriminate].
Qed.

Lemma length_stripLeading_lt s :
  (startsWith "./" s || startsWith "/" s)%bool = true ->
  (String.length (stripLeading s) < String.length s)%nat.
Proof.
  unfold stripLeading. intros H.
  destruct (startsWith "./" s) eqn:E1.
  - destruct (startsWith_nonempty _ _ _ E1) as [t ->].
    change (drop 2 (String "." t)) with (drop 1 t).
    pose proof (length_drop 1 t) as L. remember (drop 1 t) as u.
    simpl. lia.
  - simpl in H. rewrite H.
    destruct (startsWith_nonempty _ _ _ H) as [t ->]. simpl. lia.
Qed.

Lemma length_stripTrailingSlash s :
  (String.length (stripTrailingSlash s) <= String.length s)%nat.
Proof.
  induction s as [|c t IH]; simpl; [lia|].
  destruct t as [|d u].
  - destruct (Ascii.eqb c slash); simpl; lia.
  - simpl in *. lia.
Qed.

Lemma length_stripTrailingSlash_lt s :
  lastIs (Ascii.eqb slash) s = true ->
  (String.length (stripTrailingSlash s) < String.length s)%nat.
Proof.
  induction s as [|c t IH]; simpl; [discriminate|].
  destruct t as [|d u].
  - rewrite Ascii.eqb_sym. intros ->. simpl. lia.
  - intros H. specialize (IH H). simpl in *. lia.
Qed.

(** *** Backslashes do not survive the replacement. *)

Lemma allAre_replaceBackslashes s :
  allAre (fun c => negb (Ascii.eqb c backslash)) (replaceBackslashes s) = true.
Proof.
  induction s as [|c t IH]; simpl; [reflexivity|].
  rewrite IH, andb_true_r.
  destruct (Ascii.eqb c backslash) eqn:E; [reflexivity|].
  rewrite E. reflexivity.
Qed.

Lemma allAre_drop f n s : allAre f s = true -> allAre f (drop n s) = true.
Proof.
  revert s. induction n as [|n IH]; intros s; simpl; [auto|].
  destruct s as [|c t]; simpl; [auto|].
  intros H. apply andb_prop in H. apply IH, H.
Qed.

Lemma allAre_stripLeading f s :
  allAre f s = true -> allAre f (stripLeading s) = true.
Proof.
  unfold stripLeading. intros H.
  destruct (startsWith "./" s); [apply allAre_drop, H|].
  destruct (startsWith "/" s); [apply allAre_drop, H|]. exact H.
Qed.

Lemma allAre_stripTrailingSlash f s :
  allAre f s = true -> allAre f (stripTrailingSlash s) = true.
Proof.
  induction s as [|c t IH]; [auto|].
  intros H. simpl in H. apply andb_prop in H. destruct H as [Hc Ht].
  destruct t as [|d u].
  - simpl. destruct (Ascii.eqb c slash); simpl; [reflexivity|].
    rewrite Hc. reflexivity.
  - specialize (IH Ht).
    change (stripTrailingSlash (String c (String d u)))
      with (String c (stripTrailingSlash (String d u))).
    remember (stripTrailingSlash (String d u)) as r.
    simpl. rewrite Hc, IH. reflexivity.
Qed.

End JsFacts.

(* ===================================================================== *)
(** * Properties of the pattern matcher                                   *)
(* ===================================================================== *)

Module IgnoreFacts.
Import Js JsFacts Ignore.

#[local] Arguments Ascii.eqb : simpl never.
#[local] Arguments isWhiteSpace : simpl never.

(** ** Normalization *)

Lemma length_normalizeBody t :
  (String.length (normalizeBody t) <= String.length t)%nat.
Proof.
  unfold normalizeBody, trim.
  pose proof (length_stripTrailingSlash
                (stripLeading (replaceBackslashes (trimEnd (trimStart t))))).
  pose proof (length_stripLeading (replaceBackslashes (trimEnd (trimStart t)))).
  pose proof (length_replaceBackslashes (trimEnd (trimStart t))).
  pose proof (length_trimEnd (trimStart t)).
  pose proof (length_trimStart t). lia.
Qed.

Lemma noBackslash_normalizeBody t : allAre notBackslash (normalizeBody t) = true.
Proof.
  unfold normalizeBody.
  apply allAre_stripTrailingSlash, allAre_stripLeading, allAre_replaceBackslashes.
Qed.

Lemma noBackslash_normalized ig s : allAre notBackslash (normalized ig s) = true.
Proof.
  unfold normalized, normalizePattern.
  destruct (allowNegation (options ig) && startsWith "!" s)%bool; simpl;
    apply noBackslash_normalizeBody.
Qed.

Lemma normalizeBody_fixed t :
  allAre notBackslash t = true ->
  firstIs isWhiteSpace t = false ->
  lastIs isWhiteSpace t = false ->
  startsWith "./" t = false ->
  startsWith "/" t = false ->
  lastIs (Ascii.eqb slash) t = false ->
  normalizeBody t = t.
Proof.
  intros Hb Hf Hl Hd Hs Ht. unfold normalizeBody, trim.
  rewrite (trimStart_fixed _ Hf), (trimEnd_fixed _ Hl).
  rewrite (replaceBackslashes_fixed _ Hb).
  rewrite (stripLeading_fixed _ Hd Hs).
  apply stripTrailingSlash_fixed, Ht.
Qed.

Lemma normalizeBody_fixed_inv t :
  normalizeBody t = t ->
  allAre notBackslash t = true
  /\ firstIs isWhiteSpace t = false
  /\ lastIs isWhiteSpace t = false
  /\ startsWith "./" t = false
  /\ startsWith "/" t = false
  /\ lastIs (Ascii.eqb slash) t = false.
Proof.
  intros E.
  assert (Hb : allAre notBackslash t = true).
  { rewrite <- E. apply noBackslash_normalizeBody. }
  assert (L : String.length (normalizeBody t) = String.length t) by (rewrite E; reflexivity).
  assert (Hf : firstIs isWhiteSpace t = false).
  { destruct (firstIs isWhiteSpace t) eqn:F; [exfalso|reflexivity].
    pose proof (length_trimStart_lt _ F).
    unfold normalizeBody, trim in L.
    pose proof (length_stripTrailingSlash
                  (stripLeading (replaceBackslashes (trimEnd (trimStart t))))).
    pose proof (length_stripLeading (replaceBackslashes (trimEnd (trimStart t)))).
    pose proof (length_replaceBackslashes (trimEnd (trimStart t))).
    pose proof (length_trimEnd (trimStart t)). lia. }
  assert (Hl : lastIs isWhiteSpace t = false).
  { destruct (lastIs isWhiteSpace t) eqn:F; [exfalso|reflexivity].
    pose proof (trimEnd_empty_of_last _ F).
    unfold normalizeBody, trim in L. rewrite (trimStart_fixed _ Hf) in L.
    pose proof (length_stripTrailingSlash
                  (stripLeading (replaceBackslashes (trimEnd t)))).
    pose proof (length_stripLeading (replaceBackslashes (trimEnd t))).
    pose proof (length_replaceBackslashes (trimEnd t)). lia. }
  assert (E' : stripTrailingSlash (stripLeading t) = t).
  { unfold normalizeBody, trim in E.
    rewrite (trimStart_fixed _ Hf), (trimEnd_fixed _ Hl) in E.
    rewrite (replaceBackslashes_fixed _ Hb) in E. exact E. }
  assert (L' : String.length (stripTrailingSlash (stripLeading t)) = String.length t)
    by (rewrite E'; reflexivity).
  assert (Hp : (startsWith "./" t || startsWith "/" t)%bool = false).
  { destruct (startsWith "./" t || startsWith "/" t)%bool eqn:F; [exfalso|reflexivity].
    pose proof (length_stripLeading_lt _ F).
    pose proof (length_stripTrailingSlash (stripLeading t)). lia. }
  apply orb_false_elim in Hp. destruct Hp as [Hd Hs].
  rewrite (stripLeading_fixed _ Hd Hs) in L'.
  assert (Ht : lastIs (Ascii.eqb slash) t = false).
  { destruct (lastIs (Ascii.eqb slash) t) eqn:F; [exfalso|reflexivity].
    pose proof (length_stripTrailingSlash_lt _ F). lia. }
  auto 10.
Qed.

(** The strings that [normalizePattern] leaves as they are, are the ones in
    normal form. *)
Lemma normalized_fixed_iff ig t :
  normalized ig t = t <-> isNormalForm ig t = true.
Proof.
  unfold normalized, normalizePattern, isNormalForm. split.
  - intros E.
    destruct (allowNegation (options ig) && startsWith "!" t)%bool eqn:N.
    + exfalso. simpl in E.
      apply andb_prop in N. destruct N as [_ N].
      destruct (startsWith_nonempty _ _ _ N) as [u ->]. simpl in E.
      pose proof (length_normalizeBody u) as L. rewrite E in L. simpl in L. lia.
    + simpl in E.
      destruct (normalizeBody_fixed_inv _ E) as (Hb & Hf & Hl & Hd & Hs & Ht).
      rewrite Hb, Hf, Hl, Hd, Hs, Ht. reflexivity.
  - intros H.
    repeat (apply andb_prop in H; destruct H as [H ?]).
    repeat match goal with
           | K : negb _ = true |- _ => apply negb_true_iff in K
           end.
    rewrite H. simpl. apply normalizeBody_fixed; assumption.
Qed.

(** C7, as amended: one pass strips one [!], one leading [./] or [/] and one
    trailing [/], so normalizing a normalized string changes nothing exactly
    when the normalized string is in normal form: it begins with no [!] (when
    negation is enabled), [./], [/] or white space and ends with no [/] or
    white space. *)
Theorem normalize_twice_iff_normal_form ig s :
  normalized ig (normalized ig s) = normalized ig s
  <-> isNormalForm ig (normalized ig s) = true.
Proof. apply normalized_fixed_iff. Qed.

(** C7 as stated fails: [//a] normalizes to [/a], which normalizes to [a]. *)
Lemma normalize_not_idempotent :
  let ig := new noOptions in
  normalized ig "//a" = "/a"
  /\ normalized ig (normalized ig "//a") = "a"
  /\ normalized ig (normalized ig "//a") <> normalized ig "//a".
Proof. cbv zeta. repeat split. discriminate. Qed.

(** Patterns as ignore files write them reach their normal form in one
    pass. *)
Example normalize_usual_patterns :
  let ig := new noOptions in
  map (normalized ig) ["build/"; "/dist"; "./src/gen"; "!build/keep.txt"; "  *.log "]
  = ["build"; "dist"; "src/gen"; "build/keep.txt"; "*.log"]
  /\ forallb (fun p => isNormalForm ig (normalized ig p))
       ["build/"; "/dist"; "./src/gen"; "!build/keep.txt"; "  *.log "] = true
  /\ isNormalForm ig (normalized ig "//a") = false.
Proof. cbv zeta. repeat split. Qed.

(** ** Rules and verdicts *)

Lemma options_addPattern ig p : options (addPattern ig p) = options ig.
Proof.
  unfold addPattern. destruct (normalizePattern ig p) as [n neg].
  destruct (isEmpty n); reflexivity.
Qed.

Lemma options_addPatterns ps : forall ig, options (addPatterns ig ps) = options ig.
Proof.
  unfold addPatterns. induction ps as [|p ps IH]; intros ig; simpl; [reflexivity|].
  rewrite IH. apply options_addPattern.
Qed.

(** [normalizePattern] reads the options of the matcher only. *)
Lemma normalizePattern_options ig ig' p :
  options ig = options ig' -> normalizePattern ig p = normalizePattern ig' p.
Proof. unfold normalizePattern. intros ->. reflexivity. Qed.

Lemma normalized_options ig ig' p :
  options ig = options ig' -> normalized ig p = normalized ig' p.
Proof. unfold normalized. intros H. rewrite (normalizePattern_options ig ig' p H). reflexivity. Qed.

(** The rules that one raw pattern contributes: none or one. *)
Definition rulesOf (ig : IgnorePattern) (p : string) : list Rule :=
  let '(n, neg) := normalizePattern ig p in
  if isEmpty n then []
  else [ {| pattern := globToRegExp n (ignoreCase (options ig)); negative := neg |} ].

Lemma patterns_addPattern ig p :
  patterns (addPattern ig p) = (patterns ig ++ rulesOf ig p)%list.
Proof.
  unfold addPattern, rulesOf. destruct (normalizePattern ig p) as [n neg].
  destruct (isEmpty n); simpl; [rewrite app_nil_r|]; reflexivity.
Qed.

Lemma rulesOf_options ig ig' p : options ig = options ig' -> rulesOf ig p = rulesOf ig' p.
Proof.
  unfold rulesOf. intros H. rewrite (normalizePattern_options ig ig' p H), H. reflexivity.
Qed.

Lemma patterns_addPatterns ps : forall ig,
  patterns (addPatterns ig ps) = (patterns ig ++ flat_map (rulesOf ig) ps)%list.
Proof.
  unfold addPatterns. induction ps as [|p ps IH]; intros ig; simpl.
  - rewrite app_nil_r. reflexivity.
  - rewrite IH, patterns_addPattern, <- app_assoc. f_equal. f_equal.
    apply flat_map_ext. intros q. apply rulesOf_options, options_addPattern.
Qed.

Section Verdict.

Variable test : RegExp -> string -> bool.

Lemma scanRules_app l1 l2 q b :
  scanRules test (l1 ++ l2)%list q b = scanRules test l2 q (scanRules test l1 q b).
Proof. unfold scanRules. apply fold_left_app. Qed.

Lemma scanRules_no_match l q : forall b,
  (forall r, In r l -> test (pattern r) q = false) -> scanRules test l q b = b.
Proof.
  unfold scanRules. induction l as [|r l IH]; intros b H; simpl; [reflexivity|].
  rewrite (H r (or_introl eq_refl)). apply IH. intros r' Hr'. apply H. right. exact Hr'.
Qed.

(** Last match wins: the verdict is the negation state of the last rule that
    matches, whatever stands before it. *)
Lemma scanRules_last_match front r back q b :
  test (pattern r) q = true ->
  (forall r', In r' back -> test (pattern r') q = false) ->
  scanRules test (front ++ r :: back)%list q b = negb (negative r).
Proof.
  intros Hr Hback. rewrite scanRules_app.
  change (r :: back) with ([r] ++ back)%list. rewrite scanRules_app.
  rewrite (scanRules_no_match back q _ Hback).
  unfold scanRules. simpl. rewrite Hr. reflexivity.
Qed.

Lemma startsWith_bang_cons P : startsWith "!" ("!" ++ P) = true.
Proof. unfold startsWith. simpl. destruct P; reflexivity. Qed.

Lemma rulesOf_plain ig P :
  startsWith "!" P = false ->
  isEmpty (normalized ig P) = false ->
  rulesOf ig P =
  [ {| pattern := globToRegExp (normalized ig P) (ignoreCase (options ig));
       negative := false |} ].
Proof.
  unfold rulesOf, normalized, normalizePattern. intros -> H.
  rewrite andb_false_r in *. simpl in *. rewrite H. reflexivity.
Qed.

Lemma rulesOf_negated ig P :
  allowNegation (options ig) = true ->
  startsWith "!" P = false ->
  isEmpty (normalized ig P) = false ->
  rulesOf ig ("!" ++ P) =
  [ {| pattern := globToRegExp (normalized ig P) (ignoreCase (options ig));
       negative := true |} ].
Proof.
  unfold rulesOf, normalized, normalizePattern. intros -> HP H.
  rewrite startsWith_bang_cons. rewrite HP in *. simpl in *. rewrite H. reflexivity.
Qed.

(** C4, as amended: with negation enabled and a pattern [P] that does not
    itself begin with [!], whose compiled matcher matches the normalized
    path: adding [P] then [!P] leaves the path kept, adding [!P] then [P]
    leaves it ignored; a path that no rule matches is kept; in general the
    verdict is the negation state of the last matching rule. *)
Theorem last_match_wins ig P p :
  allowNegation (options ig) = true ->
  startsWith "!" P = false ->
  isEmpty (normalized ig P) = false ->
  test (globToRegExp (normalized ig P) (ignoreCase (options ig))) (normalized ig p)
  = true ->
  shouldIgnore test (addPatterns ig [P; "!" ++ P]) p = false
  /\ shouldIgnore test (addPatterns ig ["!" ++ P; P]) p = true
  /\ (forall ig' q,
        (forall r, In r (patterns ig') -> test (pattern r) (normalized ig' q) = false) ->
        shouldIgnore test ig' q = false)
  /\ (forall ig' q front r back,
        patterns ig' = (front ++ r :: back)%list ->
        test (pattern r) (normalized ig' q) = true ->
        (forall r', In r' back -> test (pattern r') (normalized ig' q) = false) ->
        shouldIgnore test ig' q = negb (negative r)).
Proof.
  intros Hneg HP Hne Hm.
  pose proof (rulesOf_plain ig P HP Hne) as R1.
  pose proof (rulesOf_negated ig P Hneg HP Hne) as R2.
  repeat split.
  - unfold shouldIgnore.
    rewrite (normalized_options _ ig p (options_addPatterns _ ig)).
    rewrite patterns_addPatterns. cbn [flat_map]. rewrite R1, R2, app_nil_r.
    rewrite scanRules_app. unfold scanRules at 1.
    cbn [app fold_left pattern negative]. rewrite Hm. reflexivity.
  - unfold shouldIgnore.
    rewrite (normalized_options _ ig p (options_addPatterns _ ig)).
    rewrite patterns_addPatterns. cbn [flat_map]. rewrite R1, R2, app_nil_r.
    rewrite scanRules_app. unfold scanRules at 1.
    cbn [app fold_left pattern negative]. rewrite Hm. reflexivity.
  - intros ig' q H. unfold shouldIgnore. apply scanRules_no_match, H.
  - intros ig' q front r back E Hr Hback. unfold shouldIgnore. rewrite E.
    apply scanRules_last_match; assumption.
Qed.

End Verdict.

(** A matcher for wildcard-free globs: the path is the glob. *)
Definition literalTest (re : RegExp) (s : string) : bool := String.eqb (glob re) s.

Lemma last_match_wins_witness :
  shouldIgnore literalTest (addPatterns (new noOptions) ["build"; "!" ++ "build"]) "build"
  = false
  /\ shouldIgnore literalTest (addPatterns (new noOptions) ["!" ++ "build"; "build"]) "build"
     = true.
Proof.
  pose proof (last_match_wins literalTest (new noOptions) "build" "build"
                eq_refl eq_refl eq_refl eq_refl) as H.
  split; [exact (proj1 H) | exact (proj1 (proj2 H))].
Defined.

(** Whatever the runtime matcher does on the glob [!a]: once [!!a] and [!a]
    are added, both rules are negations, and [a] is kept. *)
Lemma double_negation_kept test :
  shouldIgnore test (addPatterns (new noOptions) ["!" ++ "!a"; "!a"]) "a" = false.
Proof.
  unfold shouldIgnore, scanRules. simpl.
  repeat match goal with
         | |- context [test ?re ?s] => destruct (test re s)
         end; reflexivity.
Qed.

(** C4 as stated fails for a pattern that begins with [!]: the matcher
    compiled for [!a] is the one of the glob [a], it matches the path [a], and
    after [addPatterns(["!!a", "!a"])] the path is kept, not ignored. *)
Lemma negated_pattern_counterexample :
  let ig := new noOptions in
  literalTest (globToRegExp (normalized ig "!a") (ignoreCase (options ig)))
    (normalized ig "a") = true
  /\ shouldIgnore literalTest (addPatterns ig ["!" ++ "!a"; "!a"]) "a" <> true.
Proof. cbv zeta. split; [reflexivity | discriminate]. Qed.

(** ** Loading *)

Section LoadingFacts.

Variable readTextFile : string -> option string.

(** With the primary file present, the rules come from the extra patterns,
    then the primary file, then (when asked for and present) [.gitignore]. *)
Lemma loadFromFile_primary_present path o content :
  readTextFile path = Some content ->
  patterns (loadFromFile readTextFile path o) =
  flat_map (rulesOf (new o))
    (orDefault (o_extraPatterns o) []
     ++ ruleLines content
     ++ (if truthy (o_useGitignore o)
         then match readTextFile ".gitignore" with
              | Some g => ruleLines g
              | None => []
              end
         else []))%list.
Proof.
  intros E. unfold loadFromFile. rewrite E.
  assert (X : forall ig ps, options ig = options (new o) ->
              patterns (addPatterns ig ps)
              = (patterns ig ++ flat_map (rulesOf (new o)) ps)%list).
  { intros ig ps H. rewrite patterns_addPatterns. f_equal.
    apply flat_map_ext. intros q. apply rulesOf_options, H. }
  assert (O1 : options (match o_extraPatterns o with
                        | Some extra => addPatterns (new o) extra
                        | None => new o
                        end) = options (new o)).
  { destruct (o_extraPatterns o); [apply options_addPatterns | reflexivity]. }
  assert (P1 : patterns (match o_extraPatterns o with
                         | Some extra => addPatterns (new o) extra
                         | None => new o
                         end)
               = flat_map (rulesOf (new o)) (orDefault (o_extraPatterns o) [])).
  { destruct (o_extraPatterns o); simpl; [|reflexivity].
    rewrite X by reflexivity. reflexivity. }
  set (ig1 := match o_extraPatterns o with
              | Some extra => addPatterns (new o) extra
              | None => new o
              end) in *.
  assert (O2 : options (addPatterns ig1 (ruleLines content)) = options (new o)).
  { rewrite options_addPatterns. exact O1. }
  rewrite !flat_map_app.
  destruct (truthy (o_useGitignore o)).
  - destruct (readTextFile ".gitignore").
    + rewrite (X _ _ O2), (X _ _ O1), P1, <- app_assoc. reflexivity.
    + rewrite (X _ _ O1), P1. simpl. rewrite app_nil_r. reflexivity.
  - rewrite (X _ _ O1), P1. simpl. rewrite app_nil_r. reflexivity.
Qed.

(** With the primary file missing, control leaves the [try] block before
    [.gitignore] is read: only the extra patterns give rules. *)
Lemma loadFromFile_primary_missing path o :
  readTextFile path = None ->
  patterns (loadFromFile readTextFile path o) =
  flat_map (rulesOf (new o)) (orDefault (o_extraPatterns o) []).
Proof.
  intros E. unfold loadFromFile. rewrite E.
  destruct (o_extraPatterns o); simpl; [|reflexivity].
  rewrite patterns_addPatterns. reflexivity.
Qed.

End LoadingFacts.

Definition newline : string := String (ascii_of_nat 10) EmptyString.

(** A directory that holds a [.gitignore] of two rules and no [.docsignore]. *)
Definition onlyGitignore (p : string) : option string :=
  if String.eqb p ".gitignore"
  then Some ("node_modules" ++ newline ++ "dist/" ++ newline)
  else None.

Definition withGitignore : IgnoreOptions :=
  {| o_ignoreCase := None; o_allowNegation := None; o_useGitignore := Some true;
     o_extraPatterns := Some ["tmp"]; o_customIgnoreFile := None |}.

(** C6 on the code: the primary ignore file is missing, [.gitignore] is
    present with two rules and is asked for; the loaded matcher holds the
    rule of the extra pattern only, and keeps [node_modules]. *)
Theorem gitignore_lost_with_missing_primary :
  ruleLines ("node_modules" ++ newline ++ "dist/" ++ newline) = ["node_modules"; "dist/"]
  /\ patterns (loadFromFile onlyGitignore ".docsignore" withGitignore)
     = [ {| pattern := globToRegExp "tmp" true; negative := false |} ]
  /\ shouldIgnore literalTest (loadFromFile onlyGitignore ".docsignore" withGitignore)
       "node_modules" = false.
Proof. repeat split. Qed.

(** The same files with the primary file present and empty: the rules of
    [.gitignore] follow the extra pattern. *)
Example gitignore_loaded_with_primary_present :
  patterns (loadFromFile
              (fun p => if String.eqb p ".docsignore" then Some "" else onlyGitignore p)
              ".docsignore" withGitignore)
  = [ {| pattern := globToRegExp "tmp" true; negative := false |};
      {| pattern := globToRegExp "node_modules" true; negative := false |};
      {| pattern := globToRegExp "dist" true; negative := false |} ].
Proof. reflexivity. Qed.

Lemma loadFromFile_primary_present_witness :
  patterns (loadFromFile
              (fun p => if String.eqb p ".docsignore"
                        then Some ("# build output" ++ newline ++ "build/" ++ newline)
                        else onlyGitignore p)
              ".docsignore" withGitignore)
  = [ {| pattern := globToRegExp "tmp" true; negative := false |};
      {| pattern := globToRegExp "build" true; negative := false |};
      {| pattern := globToRegExp "node_modules" true; negative := false |};
      {| pattern := globToRegExp "dist" true; negative := false |} ].
Proof.
  rewrite (loadFromFile_primary_present
             (fun p => if String.eqb p ".docsignore"
                       then Some ("# build output" ++ newline ++ "build/" ++ newline)
                       else onlyGitignore p)
             ".docsignore" withGitignore
             ("# build output" ++ newline ++ "build/" ++ newline) eq_refl).
  reflexivity.
Defined.

End IgnoreFacts.

(* ===================================================================== *)
(** * Properties of the tree scanner                                      *)
(* ===================================================================== *)

Module ScannerFacts.
Import Js Scanner.

#[local] Arguments Ascii.eqb : simpl never.

Definition notSep (sep c : ascii) : bool := negb (Ascii.eqb c sep).

Lemma split_not_nil sep s : split sep s <> [].
Proof.
  destruct s as [|c t]; simpl; [discriminate|].
  destruct (Ascii.eqb c sep); [discriminate|].
  destruct (split sep t); discriminate.
Qed.

Lemma split_without_sep sep s : allAre (notSep sep) s = true -> split sep s = [s].
Proof.
  induction s as [|c t IH]; simpl; [reflexivity|].
  intros H. apply andb_prop in H. destruct H as [Hc Ht].
  unfold notSep in Hc. apply negb_true_iff in Hc. rewrite Hc, (IH Ht). reflexivity.
Qed.

Lemma pop_cons x l : l <> [] -> pop (x :: l) = pop l.
Proof. destruct l; [congruence | reflexivity]. Qed.

Lemma length_split_app sep a b :
  (2 <= List.length (split sep (a ++ String sep b)))%nat.
Proof.
  induction a as [|c a IH]; simpl.
  - rewrite Ascii.eqb_refl. simpl.
    pose proof (split_not_nil sep b). destruct (split sep b); simpl; [congruence | lia].
  - destruct (Ascii.eqb c sep); simpl; [lia|].
    destruct (split sep (a ++ String sep b)); simpl in *; lia.
Qed.

Lemma pop_split_app sep a b :
  pop (split sep (a ++ String sep b)) = pop (split sep b).
Proof.
  induction a as [|c a IH]; simpl.
  - rewrite Ascii.eqb_refl. apply pop_cons, split_not_nil.
  - destruct (Ascii.eqb c sep).
    + rewrite pop_cons by apply split_not_nil. exact IH.
    + pose proof (length_split_app sep a b) as L.
      destruct (split sep (a ++ String sep b)) as [|x [|y ys]];
        simpl in L; try lia. exact IH.
Qed.

(** The fallback [|| ''] has nothing to replace: an empty extension is the
    empty string already. *)
Lemma extensionOf_pop name :
  extensionOf name =
  match pop (split "."%char name) with Some s => toLowerCase s | None => "" end.
Proof.
  unfold extensionOf. destruct (pop (split "." name)) as [s|]; [|reflexivity].
  destruct (toLowerCase s); reflexivity.
Qed.

(** A name with a dot: the lowercased text after the last dot. *)
Lemma extensionOf_dotted base ext :
  allAre (notSep "."%char) ext = true ->
  extensionOf (base ++ String "."%char ext) = toLowerCase ext.
Proof.
  intros H. rewrite extensionOf_pop, pop_split_app, (split_without_sep _ _ H).
  reflexivity.
Qed.

(** A name without a dot: [split] returns the name alone, [pop] returns it,
    and the extension is the whole name in lower case. *)
Lemma extensionOf_dotless name :
  allAre (notSep "."%char) name = true -> extensionOf name = toLowerCase name.
Proof.
  intros H. rewrite extensionOf_pop, (split_without_sep _ _ H). reflexivity.
Qed.


Definition makefileEntry : WalkEntry :=
  {| e_path := "/repo/Makefile"; e_name := "Makefile"; e_relative := "Makefile";
     e_size := Some 120 |}.

(** C8 on the code: the name [Makefile] holds no dot; its computed extension
    is [makefile], not the empty string, so the allow-list [["makefile"]]
    accepts the file and the scan reports the extension [makefile]. *)
Theorem dotless_name_extension :
  extensionOf "Makefile" = "makefile"
  /\ rejectedByExtension ["makefile"] "Makefile" = false
  /\ scanDirectory IgnoreFacts.literalTest (fun _ => None) ".docsignore" ["makefile"]
       [makefileEntry]
     = Some [ {| path := "/repo/Makefile"; relativePath := "Makefile"; size := 120;
                 extension := "makefile" |} ]
  /\ filterFiles IgnoreFacts.literalTest (Ignore.new Ignore.noOptions) ["makefile"]
       [makefileEntry] [] = ["/repo/Makefile"].
Proof. repeat split. Qed.

Example extension_examples :
  extensionOf "main.TS" = "ts" /\ extensionOf "archive.tar.GZ" = "gz"
  /\ extensionOf ".gitignore" = "gitignore" /\ extensionOf "trailing." = ""
  /\ extensionOf "" = "".
Proof. repeat split. Qed.

Lemma extensionOf_dotted_witness : extensionOf ("archive.tar" ++ String "."%char "GZ") = "gz".
Proof. exact (extensionOf_dotted "archive.tar" "GZ" eq_refl). Defined.

End ScannerFacts.

(* ===================================================================== *)
(** * Properties of the per-file pipeline                                 *)
(* ===================================================================== *)

Module PipelineFacts.
Import Processor.

(** An effect of one attempt: an update that is no [skip], or the
    [processed] counter. *)
Definition attemptEffect (e : Effect) : Prop :=
  match e with
  | SendUpdate u => type u = TStart \/ type u = TProgress \/ type u = TComplete
  | IncrProcessed => True
  | _ => False
  end.



Section Facts.

Variable opts : Options.

Lemma readLoop_progress_only path total ab steps : forall content bytes last,
  Forall (fun e => exists u, e = SendUpdate u /\ type u = TProgress)
    (fst (readLoop opts path total ab steps content bytes last)).
Proof.
  induction steps as [|s rest IH]; intros content bytes last; simpl.
  - destruct ab; constructor.
  - destruct (rs_aborted s); [constructor|].
    destruct (rs_read s) as [chunk text|e]; [|constructor].
    destruct (progressInterval opts <=? rs_now s - last).
    + specialize (IH (content ++ text)%string (bytes + chunk) (rs_now s)).
      destruct (readLoop opts path total ab rest (content ++ text) (bytes + chunk)
                  (rs_now s)) as [es r].
      simpl in *. constructor; [|exact IH].
      eexists. split; reflexivity.
    + apply IH.
Qed.

Lemma readFileWithProgress_progress_only path a :
  Forall (fun e => exists u, e = SendUpdate u /\ type u = TProgress)
    (fst (readFileWithProgress opts path a)).
Proof.
  unfold readFileWithProgress.
  destruct (at_open a); [constructor|].
  destruct (at_fstat a); [constructor|].
  apply readLoop_progress_only.
Qed.

Lemma attempt_effects path a : Forall attemptEffect (fst (attempt opts path a)).
Proof.
  unfold attempt. destruct (validateFile opts path a); [constructor|].
  pose proof (readFileWithProgress_progress_only path a) as H.
  destruct (readFileWithProgress opts path a) as [es r]. simpl in H.
  assert (H' : Forall attemptEffect es).
  { eapply Forall_impl; [|exact H]. intros e [u [-> Hu]]. simpl. auto. }
  destruct r as [content|e]; simpl.
  - constructor; [simpl; auto|].
    apply Forall_app. split; [exact H'|].
    constructor; [exact I|]. constructor; [simpl; auto|]. constructor.
  - constructor; [simpl; auto | exact H'].
Qed.

Lemma delaysOf_app es1 es2 :
  delaysOf (es1 ++ es2) = (delaysOf es1 ++ delaysOf es2)%list.
Proof.
  induction es1 as [|e es1 IH]; simpl; [reflexivity|].
  destruct e; simpl; rewrite IH; reflexivity.
Qed.

Lemma delaysOf_attemptEffects es : Forall attemptEffect es -> delaysOf es = [].
Proof.
  induction 1 as [|e es He _ IH]; simpl; [reflexivity|].
  destruct e; simpl in *; try contradiction; exact IH.
Qed.

(** *** The retry loop ends *)

Lemma retryLoop_total path script : forall fuel retryCount lastError n,
  maxRetries opts + 1 - retryCount <= Z.of_nat fuel ->
  exists run, retryLoop opts fuel path script retryCount lastError n = Some run.
Proof.
  induction fuel as [|fuel IH]; intros rc last n Hfuel; simpl.
  - destruct (rc <=? maxRetries opts) eqn:E; [|eauto].
    apply Z.leb_le in E. lia.
  - destruct (rc <=? maxRetries opts) eqn:E; [|eauto].
    destruct (attempt opts path (script n)) as [es [content|e]]; [eauto|].
    destruct (IH (rc + 1) (Some e) (S n)) as [run ->]; [lia|].
    simpl. eauto.
Qed.

(** [processFileWithRetry] settles, whatever the runtime does. *)
Lemma processFileWithRetry_total path script :
  exists run, processFileWithRetry opts path script = Some run.
Proof.
  unfold processFileWithRetry. apply retryLoop_total. lia.
Qed.



(** *** A path that fails at every attempt *)

(** The backoff awaited after the failure that brings the count to [k]. *)
Definition waitAfter (k : nat) : list Effect :=
  if Z.of_nat k <=? maxRetries opts
  then [Delay (retryDelay opts * Z.of_nat k)] else [].

(** What iterations [n], [n+1], ..., [n+k-1] perform when each of them
    fails. *)
Definition failingEffects (path : string) (script : nat -> Attempt) (n k : nat)
  : list Effect :=
  flat_map (fun m => fst (attempt opts path (script m)) ++ waitAfter (S m))%list
    (seq n k).

Definition lastErrorAfter (errs : nat -> JsErr) (lastError : option JsErr)
  (n k : nat) : option JsErr :=
  match k with
  | O => lastError
  | S k' => Some (errs (n + k')%nat)
  end.

Lemma retryLoop_all_fail path script errs :
  (forall m, snd (attempt opts path (script m)) = Threw (errs m)) ->
  forall k n lastError,
    Z.of_nat n + Z.of_nat k = maxRetries opts + 1 ->
    retryLoop opts k path script (Z.of_nat n) lastError n =
    let fileError :=
      fileErrorOf path (maxRetries opts + 1) (lastErrorAfter errs lastError n k) in
    Some {| effects :=
              failingEffects path script n k
              ++ [IncrFailed;
                  SendUpdate (mkProcessUpdate TError path (DataError fileError))];
            attempts := n + k;
            outcome := Rejected fileError |}.
Proof.
  intros Hfail. induction k as [|k IH]; intros n last Hk; cbv zeta.
  - simpl. replace (Z.of_nat n <=? maxRetries opts) with false
      by (symmetry; apply Z.leb_gt; lia).
    replace (Z.of_nat n) with (maxRetries opts + 1) by lia.
    rewrite Nat.add_0_r. reflexivity.
  - simpl retryLoop.
    replace (Z.of_nat n <=? maxRetries opts) with true
      by (symmetry; apply Z.leb_le; lia).
    specialize (Hfail n).
    destruct (attempt opts path (script n)) as [es r] eqn:Ea. simpl in Hfail.
    subst r.
    replace (Z.of_nat n + 1) with (Z.of_nat (S n)) by lia.
    rewrite (IH (S n) (Some (errs n))) by lia. cbv zeta. simpl option_map.
    unfold before. simpl effects. simpl attempts. simpl outcome.
    assert (L : lastErrorAfter errs (Some (errs n)) (S n) k
                = lastErrorAfter errs last n (S k)).
    { destruct k; simpl; [rewrite Nat.add_0_r; reflexivity|].
      f_equal. f_equal. lia. }
    rewrite L. f_equal. f_equal; [|lia].
    unfold failingEffects. simpl seq. simpl flat_map. rewrite Ea. simpl fst.
    unfold waitAfter at 2. rewrite <- !app_assoc. reflexivity.
Qed.

Lemma delaysOf_failingEffects path script : forall k n,
  Z.of_nat n + Z.of_nat k = maxRetries opts + 1 ->
  delaysOf (failingEffects path script n k)
  = map (fun j => retryDelay opts * Z.of_nat j) (seq (S n) (Nat.pred k)).
Proof.
  unfold failingEffects.
  induction k as [|k IH]; intros n Hk; [reflexivity|].
  cbn [seq flat_map]. rewrite !delaysOf_app.
  rewrite (delaysOf_attemptEffects _ (attempt_effects path (script n))).
  rewrite IH by lia. cbn [app Nat.pred]. unfold waitAfter.
  destruct k as [|k].
  - replace (Z.of_nat (S n) <=? maxRetries opts) with false
      by (symmetry; apply Z.leb_gt; lia).
    reflexivity.
  - replace (Z.of_nat (S n) <=? maxRetries opts) with true
      by (symmetry; apply Z.leb_le; lia).
    reflexivity.
Qed.

End Facts.

(** ** Retry and backoff *)

(** The run of a pipeline whose every attempt throws. *)
Lemma processFileWithRetry_all_fail opts path script errs :
  0 <= maxRetries opts ->
  (forall n, snd (attempt opts path (script n)) = Threw (errs n)) ->
  processFileWithRetry opts path script =
  let fileError :=
    fileErrorOf path (maxRetries opts + 1)
      (Some (errs (Z.to_nat (maxRetries opts)))) in
  Some {| effects :=
            failingEffects opts path script 0 (S (Z.to_nat (maxRetries opts)))
            ++ [IncrFailed;
                SendUpdate (mkProcessUpdate TError path (DataError fileError))];
          attempts := S (Z.to_nat (maxRetries opts));
          outcome := Rejected fileError |}.
Proof.
  intros HR Hfail. unfold processFileWithRetry.
  replace (Z.to_nat (maxRetries opts + 1)) with (S (Z.to_nat (maxRetries opts))) by lia.
  pose proof (retryLoop_all_fail opts path script errs Hfail
                (S (Z.to_nat (maxRetries opts))) 0 None) as E.
  cbv zeta in E. change (Z.of_nat 0) with 0 in E. rewrite E by lia.
  reflexivity.
Qed.

(** C3: with [maxRetries = R >= 0] and a path whose every attempt throws,
    the loop runs [R + 1] times, the promise rejects with a [FileError] whose
    [retryCount] is [R + 1], and the delays awaited are [retryDelay * k] for
    [k = 1..R]: after the [k]-th failure for [k <= R], none after the last. *)
Theorem retry_exhaustion opts path script errs :
  0 <= maxRetries opts ->
  (forall n, snd (attempt opts path (script n)) = Threw (errs n)) ->
  exists run fileError,
    processFileWithRetry opts path script = Some run
    /\ Z.of_nat (attempts run) = maxRetries opts + 1
    /\ outcome run = Rejected fileError
    /\ retryCount fileError = maxRetries opts + 1
    /\ filePath fileError = path
    /\ message fileError = errMessage (errs (Z.to_nat (maxRetries opts)))
    /\ delaysOf (effects run)
       = map (fun k => retryDelay opts * Z.of_nat k)
           (seq 1 (Z.to_nat (maxRetries opts)))
    /\ effects run
       = (failingEffects opts path script 0 (S (Z.to_nat (maxRetries opts)))
          ++ [IncrFailed;
              SendUpdate (mkProcessUpdate TError path (DataError fileError))])%list.
Proof.
  intros HR Hfail.
  rewrite (processFileWithRetry_all_fail opts path script errs HR Hfail). cbv zeta.
  eexists. eexists. split; [reflexivity|]. cbn [attempts outcome effects].
  split; [lia|]. split; [reflexivity|]. split; [reflexivity|].
  split; [reflexivity|]. split; [reflexivity|]. split; [|reflexivity].
  rewrite delaysOf_app, delaysOf_failingEffects by lia.
  cbn [delaysOf Nat.pred]. rewrite app_nil_r. reflexivity.
Qed.

(** A path that [Deno.stat] never finds. *)
Definition missingFile : Attempt :=
  {| at_stat := StatThrows (NotFound "No such file or directory (os error 2)");
     at_open := None; at_fstat := inr 0; at_start := 0; at_steps := [];
     at_abortedAtEnd := false |}.

Lemma retry_exhaustion_witness :
  exists run fileError,
    processFileWithRetry DEFAULT_OPTIONS "gone.ts" (fun _ => missingFile) = Some run
    /\ Z.of_nat (attempts run) = 3 + 1
    /\ outcome run = Rejected fileError
    /\ retryCount fileError = 3 + 1
    /\ filePath fileError = "gone.ts"
    /\ message fileError = "File not found: gone.ts"
    /\ delaysOf (effects run) = [1000; 2000; 3000]
    /\ effects run
       = (failingEffects DEFAULT_OPTIONS "gone.ts" (fun _ => missingFile) 0 4
          ++ [IncrFailed;
              SendUpdate (mkProcessUpdate TError "gone.ts" (DataError fileError))])%list.
Proof.
  apply (retry_exhaustion DEFAULT_OPTIONS "gone.ts" (fun _ => missingFile)
           (fun _ => JsError "File not found: gone.ts")).
  - simpl. lia.
  - intros n. reflexivity.
Defined.

(** ** Empty files *)

Definition startUpdate (path : string) : ProcessUpdate :=
  mkProcessUpdate TStart path NoData.

Definition completeUpdate (path content : string) : ProcessUpdate :=
  mkProcessUpdate TComplete path (DataContent content).

(** An attempt on a zero-byte file that passes validation, opens, and is not
    cut off by the abort signal before its first read. *)
Lemma empty_file_attempt opts path a :
  validateFile opts path a = None ->
  at_open a = None ->
  at_fstat a = inr 0 ->
  at_steps a = [] ->
  at_abortedAtEnd a = false ->
  attempt opts path a
  = ([SendUpdate (startUpdate path); IncrProcessed;
      SendUpdate (completeUpdate path "")], Returned "").
Proof.
  intros Hv Ho Hf Hs Ha.
  unfold attempt, readFileWithProgress. rewrite Hv, Ho, Hf, Hs, Ha. reflexivity.
Qed.

(** C9, as amended: for a zero-byte file that exists, passes validation,
    opens, and is not cut off by the abort signal before its first read (and
    [maxRetries >= 0], so that there is an attempt), the pipeline fulfils with
    the empty content at the first attempt and performs exactly: the [start]
    update, the increment of [processed], one [complete] update.  No
    [progress] update is built, so no percentage is computed. *)
Theorem empty_file_read opts path script :
  0 <= maxRetries opts ->
  at_stat (script 0%nat) = StatInfo true 0 ->
  validateFile opts path (script 0%nat) = None ->
  at_open (script 0%nat) = None ->
  at_fstat (script 0%nat) = inr 0 ->
  at_steps (script 0%nat) = [] ->
  at_abortedAtEnd (script 0%nat) = false ->
  processFileWithRetry opts path script
  = Some {| effects := [SendUpdate (startUpdate path); IncrProcessed;
                        SendUpdate (completeUpdate path "")];
            attempts := 1;
            outcome := Fulfilled "" |}
  /\ (forall run, processFileWithRetry opts path script = Some run ->
      forall u, In u (updatesOf (effects run)) -> type u <> TProgress).
Proof.
  intros HR _ Hv Ho Hf Hs Ha.
  assert (E : processFileWithRetry opts path script
              = Some {| effects := [SendUpdate (startUpdate path); IncrProcessed;
                                    SendUpdate (completeUpdate path "")];
                        attempts := 1;
                        outcome := Fulfilled "" |}).
  { unfold processFileWithRetry.
    replace (Z.to_nat (maxRetries opts + 1)) with (S (Z.to_nat (maxRetries opts)))
      by lia.
    cbn [retryLoop].
    replace (0 <=? maxRetries opts) with true by (symmetry; apply Z.leb_le; lia).
    rewrite (empty_file_attempt opts path (script 0%nat) Hv Ho Hf Hs Ha).
    reflexivity. }
  split; [exact E|].
  intros run Hrun u Hu. rewrite E in Hrun. injection Hrun as <-.
  simpl in Hu. destruct Hu as [<-|[<-|[]]]; discriminate.
Qed.

Definition emptyFile : Attempt :=
  {| at_stat := StatInfo true 0; at_open := None; at_fstat := inr 0;
     at_start := 1700000000000; at_steps := []; at_abortedAtEnd := false |}.

Lemma empty_file_read_witness :
  processFileWithRetry DEFAULT_OPTIONS "empty.txt" (fun _ => emptyFile)
  = Some {| effects := [SendUpdate (startUpdate "empty.txt"); IncrProcessed;
                        SendUpdate (completeUpdate "empty.txt" "")];
            attempts := 1;
            outcome := Fulfilled "" |}.
Proof.
  apply (empty_file_read DEFAULT_OPTIONS "empty.txt" (fun _ => emptyFile));
    solve [reflexivity | simpl; lia].
Defined.

(** A zero-byte file that [Deno.stat] reports and [Deno.open] refuses. *)
Definition lockedEmptyFile : Attempt :=
  {| at_stat := StatInfo true 0;
     at_open := Some (JsError "Permission denied (os error 13)");
     at_fstat := inr 0; at_start := 0; at_steps := []; at_abortedAtEnd := false |}.

(** C9 as stated fails: a zero-byte file exists and passes validation, and
    the pipeline rejects after four attempts without a [complete] update. *)
Lemma locked_empty_file_counterexample :
  validateFile DEFAULT_OPTIONS "empty.txt" lockedEmptyFile = None
  /\ option_map outcome
       (processFileWithRetry DEFAULT_OPTIONS "empty.txt" (fun _ => lockedEmptyFile))
     = Some (Rejected (fileErrorOf "empty.txt" 4
                         (Some (JsError "Permission denied (os error 13)"))))
  /\ option_map (fun run => map type (updatesOf (effects run)))
       (processFileWithRetry DEFAULT_OPTIONS "empty.txt" (fun _ => lockedEmptyFile))
     = Some [TStart; TStart; TStart; TStart; TError].
Proof. repeat split. Qed.

(** The same file when the abort signal has fired before the first read. *)
Example aborted_empty_file :
  option_map (fun run => map type (updatesOf (effects run)))
    (processFileWithRetry DEFAULT_OPTIONS "empty.txt"
       (fun _ => {| at_stat := StatInfo true 0; at_open := None; at_fstat := inr 0;
                    at_start := 0; at_steps := []; at_abortedAtEnd := true |}))
  = Some [TStart; TStart; TStart; TStart; TError].
Proof. reflexivity. Qed.

(** A file whose [stat] reports size 0 and whose read returns data (a
    special file): the percentage is a division by zero. *)
Example progress_of_sizeless_file :
  map data
    (updatesOf
       (fst (attempt DEFAULT_OPTIONS "/proc/version"
               {| at_stat := StatInfo true 0; at_open := None; at_fstat := inr 0;
                  at_start := 0;
                  at_steps := [ {| rs_aborted := false; rs_read := Chunk 5 "Linux";
                                   rs_now := 1500 |} ];
                  at_abortedAtEnd := false |})))
  = [NoData;
     DataProgress {| fp_path := "/proc/version"; bytesRead := 5; totalBytes := 0;
                     percentage := PercentInfinity |};
     DataContent "Linux"].
Proof. reflexivity. Qed.

End PipelineFacts.

(* ===================================================================== *)
(** * Properties of the statistics and of the event channel               *)
(* ===================================================================== *)

Module StatsFacts.
Import Processor PipelineFacts.
















End StatsFacts.

(* ===================================================================== *)
(** * Properties of the generator                                         *)
(* ===================================================================== *)

Module GeneratorFacts.
Import Processor PipelineFacts.

(** [l1] is [l2] with some elements left out, the order kept. *)
Inductive Subsequence {A : Type} : list A -> list A -> Prop :=
| sub_nil : Subsequence [] []
| sub_skip x l1 l2 : Subsequence l1 l2 -> Subsequence l1 (x :: l2)
| sub_keep x l1 l2 : Subsequence l1 l2 -> Subsequence (x :: l1) (x :: l2).

#[local] Hint Constructors Subsequence : core.





Lemma Subsequence_In {A} (l1 l2 : list A) x :
  Subsequence l1 l2 -> In x l1 -> In x l2.
Proof.
  induction 1 as [|y l1 l2 _ IH|y l1 l2 _ IH]; simpl; auto.
  intros [->|H]; auto.
Qed.

(** ** The [Map] *)

Lemma mapSet_fresh k v m : ~ In k (keys m) -> mapSet k v m = (m ++ [(k, v)])%list.
Proof.
  induction m as [|[k' v'] m IH]; simpl; [reflexivity|].
  intros H. destruct (String.eqb k' k) eqn:E.
  - apply String.eqb_eq in E. exfalso. apply H. left. exact E.
  - rewrite IH; [reflexivity|]. intros Hin. apply H. right. exact Hin.
Qed.


Lemma keys_app (m1 m2 : InFlight) : keys (m1 ++ m2)%list = (keys m1 ++ keys m2)%list.
Proof. apply map_app. Qed.

Lemma length_mapSet k v m :
  (List.length (mapSet k v m) <= S (List.length m))%nat.
Proof.
  induction m as [|[k' v'] m IH]; simpl; [lia|].
  destruct (String.eqb k' k); simpl; lia.
Qed.

Lemma mapSet_not_nil k v m : mapSet k v m <> [].
Proof.
  destruct m as [|[k' v'] m]; simpl; [discriminate|].
  destruct (String.eqb k' k); discriminate.
Qed.

Lemma length_mapDelete k m : (List.length (mapDelete k m) <= List.length m)%nat.
Proof.
  induction m as [|[k' v'] m IH]; simpl; [lia|].
  destruct (String.eqb k' k); simpl; lia.
Qed.

Lemma mapDelete_head k v m : mapDelete k ((k, v) :: m) = m.
Proof. simpl. rewrite String.eqb_refl. reflexivity. Qed.


Lemma Forall_mapSet (P : string * Promise -> Prop) k v m :
  Forall P m -> P (k, v) -> Forall P (mapSet k v m).
Proof.
  intros Hm Hkv. induction Hm as [|[k' v'] m Hx Hm' IH]; simpl.
  - constructor; [exact Hkv | constructor].
  - destruct (String.eqb k' k) eqn:E.
    + apply String.eqb_eq in E. subst k'. constructor; assumption.
    + constructor; assumption.
Qed.

Lemma Forall_mapDelete (P : string * Promise -> Prop) k m :
  Forall P m -> Forall P (mapDelete k m).
Proof.
  induction 1 as [|[k' v'] m Hx Hm IH]; simpl; [constructor|].
  destruct (String.eqb k' k); [exact Hm | constructor; assumption].
Qed.

(** ** The inner loop *)

Section Runs.

Variable opts : Options.
Variable world : nat -> string -> nat -> Attempt.

(** The promise that [start] stores. *)
Definition promiseOf (latency : nat -> Z) (st : GenState) (path : string) : Promise :=
  {| p_id := List.length (launched st); p_path := path;
     p_settlesAt := now st + latency (List.length (launched st));
     p_run := processFileWithRetry opts path (world (List.length (launched st)) path) |}.

Lemma inProgress_start latency path rest st :
  inProgress (start opts world latency path rest st)
  = mapSet path (promiseOf latency st path) (inProgress st).
Proof. reflexivity. Qed.

Lemma queue_start latency path rest st :
  queue (start opts world latency path rest st) = rest.
Proof. reflexivity. Qed.


Lemma launched_start latency path rest st :
  launched (start opts world latency path rest st)
  = (launched st ++ [promiseOf latency st path])%list.
Proof. reflexivity. Qed.

Lemma refill_yielded latency q : forall st,
  yielded (refill opts world latency q st) = yielded st.
Proof.
  induction q as [|p rest IH]; intros st; simpl; [reflexivity|].
  destruct (mapSize (inProgress st) <? maxConcurrent opts); [|reflexivity].
  rewrite IH. reflexivity.
Qed.

(** The inner loop moves paths from the queue to the collection: what is
    left to do does not grow. *)
Lemma refill_measure latency q : forall st,
  queue st = q ->
  (List.length (inProgress (refill opts world latency q st))
   + List.length (queue (refill opts world latency q st))
   <= List.length (inProgress st) + List.length q)%nat.
Proof.
  induction q as [|p rest IH]; intros st Hq; simpl.
  - rewrite Hq. simpl. lia.
  - destruct (mapSize (inProgress st) <? maxConcurrent opts).
    + specialize (IH (start opts world latency p rest st) eq_refl).
      rewrite inProgress_start in IH.
      pose proof (length_mapSet p (promiseOf latency st p) (inProgress st)). lia.
    + rewrite Hq. simpl. lia.
Qed.

(** With a cap of at least 1 the inner loop leaves something in flight
    whenever there is something to do. *)
Lemma refill_progress latency q : forall st,
  1 <= maxConcurrent opts ->
  q <> [] \/ inProgress st <> [] ->
  inProgress (refill opts world latency q st) <> [].
Proof.
  induction q as [|p rest IH]; intros st Hcap Hsome; simpl.
  - destruct Hsome as [H|H]; [congruence | exact H].
  - destruct (mapSize (inProgress st) <? maxConcurrent opts) eqn:E.
    + apply IH; [exact Hcap|]. right. rewrite inProgress_start. apply mapSet_not_nil.
    + apply Z.ltb_ge in E. unfold mapSize in E.
      destruct (inProgress st); [simpl in E; lia | discriminate].
Qed.


(** Every promise in flight settles. *)
Definition settles (e : string * Promise) : Prop := p_run (snd e) <> None.

Lemma refill_settles latency q : forall st,
  Forall settles (inProgress st) ->
  Forall settles (inProgress (refill opts world latency q st)).
Proof.
  induction q as [|p rest IH]; intros st H; simpl; [exact H|].
  destruct (mapSize (inProgress st) <? maxConcurrent opts); [|exact H].
  apply IH. rewrite inProgress_start. apply Forall_mapSet; auto.
  unfold settles, promiseOf. simpl.
  destruct (processFileWithRetry_total opts p (world (List.length (launched st)) p))
    as [run ->]. discriminate.
Qed.

(** The size of the collection stays within the cap. *)
Definition withinCap (st : GenState) : Prop :=
  mapSize (inProgress st) <= Z.max (maxConcurrent opts) 0
  /\ Forall (fun sn => sn_inFlight sn <= Z.max (maxConcurrent opts) 0) (history st).

Lemma refill_withinCap latency q : forall st,
  withinCap st -> withinCap (refill opts world latency q st).
Proof.
  induction q as [|p rest IH]; intros st H; simpl; [exact H|].
  destruct (mapSize (inProgress st) <? maxConcurrent opts) eqn:E; [|exact H].
  apply IH. destruct H as [Hsize Hhist]. apply Z.ltb_lt in E.
  assert (B : mapSize (mapSet p (promiseOf latency st p) (inProgress st))
              <= Z.max (maxConcurrent opts) 0).
  { unfold mapSize in *.
    pose proof (length_mapSet p (promiseOf latency st p) (inProgress st)). lia. }
  split; [exact B|].
  unfold start, record. simpl. apply Forall_app. split; [exact Hhist|].
  constructor; [exact B | constructor].
Qed.

(** ** The outer loop *)

Lemma drain_done latency fuel st :
  queue st = [] -> inProgress st = [] -> drain opts world latency fuel st = Done st.
Proof. intros Hq Hm. destruct fuel; simpl; rewrite Hq, Hm; reflexivity. Qed.

Lemma drain_step latency fuel st :
  queue st <> [] \/ inProgress st <> [] ->
  drain opts world latency (S fuel) st =
  let st1 := refill opts world latency (queue st) st in
  match inProgress st1 with
  | [] => drain opts world latency fuel st1
  | (path, promise) :: _ =>
      match p_run promise with
      | None => Suspended st1
      | Some r =>
          drain opts world latency fuel (complete path promise (outcome r) st1)
      end
  end.
Proof.
  intros H. simpl. destruct (queue st); [|reflexivity].
  destruct (inProgress st); [|reflexivity].
  destruct H; congruence.
Qed.

Lemma drain_zero latency st :
  queue st <> [] \/ inProgress st <> [] ->
  drain opts world latency 0 st = Suspended st.
Proof.
  intros H. simpl. destruct (queue st); [|reflexivity].
  destruct (inProgress st); [|reflexivity].
  destruct H; congruence.
Qed.

Lemma idle_or_busy st :
  (queue st = [] /\ inProgress st = []) \/ (queue st <> [] \/ inProgress st <> []).
Proof.
  destruct (queue st); [|right; left; discriminate].
  destruct (inProgress st); [left; auto | right; right; discriminate].
Qed.

(** What [complete] hands to the consumer. *)
Definition resultOf (path : string) (run : option PipelineRun) : list ProcessResult :=
  match run with
  | Some r =>
      match outcome r with
      | Fulfilled c => [ {| path := path; content := c |} ]
      | Rejected _ => []
      end
  | None => []
  end.

Lemma yielded_complete path promise r st :
  yielded (complete path promise (outcome r) st)
  = (yielded st ++ resultOf path (Some r))%list.
Proof.
  unfold complete, record, resultOf. simpl.
  destruct (outcome r); [reflexivity | rewrite app_nil_r; reflexivity].
Qed.

Lemma inProgress_complete path promise v st :
  inProgress (complete path promise v st) = mapDelete path (inProgress st).
Proof. reflexivity. Qed.

Lemma queue_complete path promise v st :
  queue (complete path promise v st) = queue st.
Proof. reflexivity. Qed.

Lemma launched_complete path promise v st :
  launched (complete path promise v st) = launched st.
Proof. reflexivity. Qed.

(** With a cap of at least 1 the generator ends: every iteration of the
    outer loop completes one entry. *)
Lemma drain_terminates latency : forall fuel st,
  1 <= maxConcurrent opts ->
  Forall settles (inProgress st) ->
  (List.length (inProgress st) + List.length (queue st) <= fuel)%nat ->
  exists st', drain opts world latency fuel st = Done st'.
Proof.
  induction fuel as [|fuel IH]; intros st Hcap Hset Hfuel.
  - exists st. apply drain_done.
    + destruct (queue st); [reflexivity | simpl in Hfuel; lia].
    + destruct (inProgress st); [reflexivity | simpl in Hfuel; lia].
  - destruct (idle_or_busy st) as [[Hq Hm]|Hbusy].
    + exists st. apply drain_done; assumption.
    + rewrite (drain_step latency fuel st Hbusy). cbv zeta.
      pose proof (refill_progress latency (queue st) st Hcap Hbusy) as Hne.
      pose proof (refill_measure latency (queue st) st eq_refl) as Hmeas.
      pose proof (refill_settles latency (queue st) st Hset) as Hset1.
      set (st1 := refill opts world latency (queue st) st) in *.
      destruct (inProgress st1) as [|[path promise] rest] eqn:E; [congruence|].
      inversion Hset1 as [|? ? Hp Hrest]; subst. unfold settles in Hp. simpl in Hp.
      destruct (p_run promise) as [r|]; [|congruence].
      apply IH; [exact Hcap | |].
      * rewrite inProgress_complete, E, mapDelete_head. exact Hrest.
      * rewrite inProgress_complete, queue_complete, E, mapDelete_head.
        simpl in Hmeas. lia.
Qed.


(** The collection never holds more entries than the cap. *)
Lemma drain_withinCap latency : forall fuel st,
  withinCap st -> withinCap (stateOf (drain opts world latency fuel st)).
Proof.
  induction fuel as [|fuel IH]; intros st H.
  - destruct (idle_or_busy st) as [[Hq Hm]|Hbusy].
    + rewrite drain_done by assumption. exact H.
    + rewrite drain_zero by assumption. exact H.
  - destruct (idle_or_busy st) as [[Hq Hm]|Hbusy].
    + rewrite drain_done by assumption. exact H.
    + rewrite (drain_step latency fuel st Hbusy). cbv zeta.
      pose proof (refill_withinCap latency (queue st) st H) as H1.
      set (st1 := refill opts world latency (queue st) st) in *.
      destruct (inProgress st1) as [|[p promise] rest] eqn:E; [apply IH, H1|].
      destruct (p_run promise) as [r|]; [|exact H1].
      apply IH. destruct H1 as [Hsize Hhist].
      assert (B : mapSize (mapDelete p (inProgress st1))
                  <= Z.max (maxConcurrent opts) 0).
      { unfold mapSize in *. pose proof (length_mapDelete p (inProgress st1)). lia. }
      split; [exact B|].
      unfold complete, record. simpl. apply Forall_app. split; [exact Hhist|].
      constructor; [exact B | constructor].
Qed.

(** ** Pairwise distinct paths: first in, first out *)

(** What the pipelines started from number [id] on yield for [paths], in
    order: a result for a path whose pipeline fulfils, nothing for one whose
    pipeline rejects. *)
Fixpoint expected (id : nat) (paths : list string) : list ProcessResult :=
  match paths with
  | [] => []
  | p :: rest =>
      (resultOf p (processFileWithRetry opts p (world id p))
       ++ expected (S id) rest)%list
  end.

Definition settledResults (m : InFlight) : list ProcessResult :=
  flat_map (fun e => resultOf (fst e) (p_run (snd e))) m.

Lemma refill_fifo latency q : forall st,
  queue st = q ->
  NoDup (keys (inProgress st) ++ q) ->
  let st1 := refill opts world latency q st in
  (settledResults (inProgress st1)
   ++ expected (List.length (launched st1)) (queue st1))%list
  = (settledResults (inProgress st)
     ++ expected (List.length (launched st)) q)%list
  /\ NoDup (keys (inProgress st1) ++ queue st1).
Proof.
  induction q as [|p rest IH]; intros st Hq Hnd; cbv zeta; simpl.
  - rewrite Hq. split; [reflexivity | exact Hnd].
  - destruct (mapSize (inProgress st) <? maxConcurrent opts).
    + assert (Hfresh : ~ In p (keys (inProgress st))).
      { apply NoDup_remove_2 in Hnd. intros Hin. apply Hnd.
        apply in_or_app. left. exact Hin. }
      assert (E : inProgress (start opts world latency p rest st)
                  = (inProgress st ++ [(p, promiseOf latency st p)])%list).
      { rewrite inProgress_start. apply mapSet_fresh, Hfresh. }
      destruct (IH (start opts world latency p rest st) eq_refl) as [IH1 IH2].
      { rewrite E, keys_app, <- app_assoc. exact Hnd. }
      split; [|exact IH2].
      cbv zeta in IH1. rewrite IH1, E, launched_start.
      unfold settledResults. rewrite flat_map_app, length_app, <- app_assoc.
      simpl. rewrite Nat.add_1_r, app_nil_r. reflexivity.
    + rewrite Hq. split; [reflexivity | exact Hnd].
Qed.

Lemma drain_fifo latency : forall fuel st st',
  NoDup (keys (inProgress st) ++ queue st) ->
  drain opts world latency fuel st = Done st' ->
  yielded st'
  = (yielded st ++ settledResults (inProgress st)
     ++ expected (List.length (launched st)) (queue st))%list.
Proof.
  induction fuel as [|fuel IH]; intros st st' Hnd Hrun.
  - destruct (idle_or_busy st) as [[Hq Hm]|Hbusy].
    + rewrite drain_done in Hrun by assumption. injection Hrun as <-.
      rewrite Hq, Hm. simpl. rewrite app_nil_r. reflexivity.
    + rewrite drain_zero in Hrun by assumption. discriminate.
  - destruct (idle_or_busy st) as [[Hq Hm]|Hbusy].
    + rewrite drain_done in Hrun by assumption. injection Hrun as <-.
      rewrite Hq, Hm. simpl. rewrite app_nil_r. reflexivity.
    + rewrite (drain_step latency fuel st Hbusy) in Hrun. cbv zeta in Hrun.
      destruct (refill_fifo latency (queue st) st eq_refl Hnd) as [E1 ND1].
      pose proof (refill_yielded latency (queue st) st) as Hy.
      set (st1 := refill opts world latency (queue st) st) in *.
      rewrite <- E1, <- Hy.
      destruct (inProgress st1) as [|[p promise] rest] eqn:E.
      * rewrite (IH st1 st'); [rewrite E; reflexivity | rewrite E; exact ND1 | exact Hrun].
      * destruct (p_run promise) as [r|] eqn:Er; [|discriminate].
        rewrite (IH (complete p promise (outcome r) st1) st');
          [ | | exact Hrun].
        -- rewrite yielded_complete, inProgress_complete, queue_complete,
             launched_complete, E, mapDelete_head.
           unfold settledResults. simpl. rewrite Er, <- !app_assoc. reflexivity.
        -- rewrite inProgress_complete, queue_complete, E, mapDelete_head.
           simpl in ND1. inversion ND1; assumption.
Qed.

(** ** Two assignments of completion delays *)




Lemma Forall2_mapDelete (R : string * Promise -> string * Promise -> Prop) k m1 m2 :
  (forall e1 e2, R e1 e2 -> fst e1 = fst e2) ->
  Forall2 R m1 m2 -> Forall2 R (mapDelete k m1) (mapDelete k m2).
Proof.
  intros Hkey Hm. induction Hm as [|[k1 w1] [k2 w2] m1 m2 Hx Hm IH]; simpl.
  - constructor.
  - pose proof (Hkey _ _ Hx) as K. simpl in K. subst k2.
    destruct (String.eqb k1 k); [exact Hm | constructor; assumption].
Qed.



End Runs.

(** ** Rejected promises *)

Lemma retryLoop_rejected opts path script : forall fuel rc lastError n run fileError,
  retryLoop opts fuel path script rc lastError n = Some run ->
  outcome run = Rejected fileError ->
  filePath fileError = path
  /\ retryCount fileError = Z.max rc (maxRetries opts + 1)
  /\ exists front,
      effects run
      = (front ++ [IncrFailed;
                   SendUpdate (mkProcessUpdate TError path (DataError fileError))])%list.
Proof.
  induction fuel as [|fuel IH]; intros rc last n run fe; simpl.
  - destruct (rc <=? maxRetries opts) eqn:E; [discriminate|].
    apply Z.leb_gt in E. intros [= <-]. simpl. intros [= <-]. simpl.
    split; [reflexivity|]. split; [lia|]. exists []. reflexivity.
  - destruct (rc <=? maxRetries opts) eqn:E.
    + apply Z.leb_le in E.
      destruct (attempt opts path (script n)) as [es [content|e]].
      * intros [= <-]. simpl. discriminate.
      * destruct (retryLoop opts fuel path script (rc + 1) (Some e) (S n))
          as [run'|] eqn:Er; [|discriminate].
        simpl. intros [= <-]. simpl. intros Hout.
        destruct (IH _ _ _ _ _ Er Hout) as (Hp & Hc & front & Hf).
        split; [exact Hp|]. split; [lia|].
        eexists. rewrite Hf, app_assoc. reflexivity.
    + apply Z.leb_gt in E. intros [= <-]. simpl. intros [= <-]. simpl.
      split; [reflexivity|]. split; [lia|]. exists []. reflexivity.
Qed.

Lemma in_expected opts world r : forall files id,
  In r (expected opts world id files)
  <-> exists i p, nth_error files i = Some p
                  /\ In r (resultOf p (processFileWithRetry opts p
                                         (world (id + i)%nat p))).
Proof.
  induction files as [|q files IH]; intros id; simpl.
  - split; [contradiction|]. intros (i & p & H & _). destruct i; discriminate.
  - rewrite in_app_iff, IH. split.
    + intros [H|(i & p & Hn & Hr)].
      * exists O, q. rewrite Nat.add_0_r. auto.
      * exists (S i), p. rewrite Nat.add_succ_r. auto.
    + intros (i & p & Hn & Hr). destruct i as [|i]; simpl in Hn.
      * injection Hn as ->. rewrite Nat.add_0_r in Hr. auto.
      * right. exists i, p. rewrite Nat.add_succ_r in Hr. auto.
Qed.

Lemma path_of_result p run r : In r (resultOf p run) -> path r = p.
Proof.
  unfold resultOf. destruct run as [run|]; [|contradiction].
  destruct (outcome run); simpl; [|contradiction].
  intros [<-|[]]. reflexivity.
Qed.

(** ** The outcome sequence *)

(** C1, as amended: for pairwise distinct paths and a cap of at least 1 the
    generator ends and yields, in input order, one result per path whose
    pipeline fulfils.  A path whose pipeline rejects is left out of the
    sequence: its [FileError] (with the path and the final attempt count) goes
    to the [failed] counter and to the [error] update that end its pipeline. *)
Theorem failures_are_left_out opts world latency files t0 :
  1 <= maxConcurrent opts ->
  NoDup files ->
  exists st,
    processFiles opts world latency files t0 (List.length files) = Done st
    /\ yielded st = expected opts world 0 files
    /\ forall i p, nth_error files i = Some p ->
       exists run,
         processFileWithRetry opts p (world i p) = Some run
         /\ match outcome run with
            | Fulfilled c => In {| path := p; content := c |} (yielded st)
            | Rejected fileError =>
                ~ In p (map path (yielded st))
                /\ filePath fileError = p
                /\ retryCount fileError = Z.max 0 (maxRetries opts + 1)
                /\ exists front,
                    effects run
                    = (front
                       ++ [IncrFailed;
                           SendUpdate (mkProcessUpdate TError p
                                         (DataError fileError))])%list
            end.
Proof.
  intros Hcap Hnd. unfold processFiles.
  destruct (drain_terminates opts world latency (List.length files)
              (initial files t0) Hcap) as [st Hst].
  { constructor. }
  { simpl. lia. }
  exists st. split; [exact Hst|].
  assert (Hy : yielded st = expected opts world 0 files).
  { rewrite (drain_fifo opts world latency _ (initial files t0) st Hnd Hst).
    reflexivity. }
  split; [exact Hy|].
  intros i p Hi.
  destruct (processFileWithRetry_total opts p (world i p)) as [run Hrun].
  exists run. split; [exact Hrun|].
  destruct (outcome run) as [c|fe] eqn:Hout.
  - rewrite Hy. apply in_expected. exists i, p. split; [exact Hi|].
    simpl. rewrite Hrun. unfold resultOf. rewrite Hout. left. reflexivity.
  - destruct (retryLoop_rejected opts p (world i p) _ _ _ _ _ _ Hrun Hout)
      as (Hp & Hc & Hf).
    split; [|auto].
    rewrite Hy. intros Hin. apply in_map_iff in Hin.
    destruct Hin as (r & Hr & Hin). apply in_expected in Hin.
    destruct Hin as (j & q & Hj & Hq). simpl in Hq.
    pose proof (path_of_result _ _ _ Hq) as E. rewrite Hr in E. subst q.
    assert (j = i).
    { rewrite NoDup_nth_error in Hnd. apply Hnd; [|congruence].
      apply nth_error_Some. congruence. }
    subst j. rewrite Hrun in Hq. unfold resultOf in Hq. rewrite Hout in Hq.
    exact Hq.
Qed.

(** A file read in one chunk. *)
Definition textFile (c : string) : Attempt :=
  {| at_stat := StatInfo true (Z.of_nat (String.length c));
     at_open := None;
     at_fstat := inr (Z.of_nat (String.length c));
     at_start := 0;
     at_steps := [ {| rs_aborted := false;
                      rs_read := Chunk (Z.of_nat (String.length c)) c;
                      rs_now := 1 |} ];
     at_abortedAtEnd := false |}.

(** A directory in which [gone.ts] is missing and every other path holds
    its own name. *)
Definition sampleWorld (id : nat) (p : string) (n : nat) : Attempt :=
  if String.eqb p "gone.ts" then missingFile else textFile p.

Lemma failures_are_left_out_witness :
  exists st,
    processFiles DEFAULT_OPTIONS sampleWorld (fun _ => 10)
      ["a.ts"; "gone.ts"; "b.ts"] 0 3 = Done st
    /\ yielded st = [ {| path := "a.ts"; content := "a.ts" |};
                      {| path := "b.ts"; content := "b.ts" |} ].
Proof.
  destruct (failures_are_left_out DEFAULT_OPTIONS sampleWorld (fun _ => 10)
              ["a.ts"; "gone.ts"; "b.ts"] 0) as [st [Hrun [Hy _]]].
  - simpl. lia.
  - repeat (constructor; [simpl; intuition discriminate|]). constructor.
  - exists st. split; [exact Hrun | rewrite Hy; reflexivity].
Defined.

(** C1 as stated fails: the pipeline of the one input path rejects with a
    [FileError] after four attempts, the generator ends, and the sequence it
    yielded is empty: no outcome stands for the path. *)
Lemma rejected_path_counterexample :
  option_map outcome (processFileWithRetry DEFAULT_OPTIONS "gone.ts" (sampleWorld 0 "gone.ts"))
  = Some (Rejected (fileErrorOf "gone.ts" 4
                      (Some (JsError "File not found: gone.ts"))))
  /\ exists st,
      processFiles DEFAULT_OPTIONS sampleWorld (fun _ => 10) ["gone.ts"] 0 1 = Done st
      /\ yielded st = []
      /\ List.length (yielded st) <> List.length ["gone.ts"].
Proof.
  split; [reflexivity|]. eexists. split; [reflexivity|].
  split; [reflexivity | discriminate].
Qed.

(** ** The order of the results *)

Definition isDone (r : Run) : bool :=
  match r with Done _ => true | Suspended _ => false end.



(** The instants at which the two pipelines settle, in the first run: the
    second one is done at 5, the first at 900. *)
Example fast_file_settles_first :
  map p_settlesAt
    (launched (stateOf (processFiles DEFAULT_OPTIONS sampleWorld
                          (fun id => if Nat.eqb id 0 then 900 else 5)
                          ["slow.ts"; "fast.ts"] 0 2)))
  = [900; 5].
Proof. reflexivity. Qed.

(** ** The concurrency cap *)

(** At every statement that changes the collection, in every run on every
    input, the collection holds at most [maxConcurrent] entries. *)
Lemma collection_within_cap opts world latency files t0 fuel :
  Forall (fun sn => sn_inFlight sn <= Z.max (maxConcurrent opts) 0)
    (history (stateOf (processFiles opts world latency files t0 fuel))).
Proof.
  unfold processFiles.
  apply (drain_withinCap opts world latency fuel (initial files t0)).
  split; [change (0 <= Z.max (maxConcurrent opts) 0); lia | constructor].
Qed.

(** The inner loop stops on an empty queue or on a full collection. *)
Lemma refill_exit opts world latency q : forall st,
  queue st = q ->
  queue (refill opts world latency q st) = []
  \/ maxConcurrent opts <= mapSize (inProgress (refill opts world latency q st)).
Proof.
  induction q as [|p rest IH]; intros st Hq; simpl.
  - left. exact Hq.
  - destruct (mapSize (inProgress st) <? maxConcurrent opts) eqn:E.
    + apply IH. reflexivity.
    + right. apply Z.ltb_ge in E. exact E.
Qed.

(** With pairwise distinct paths, a completion that leaves one free place
    and a path in the queue is followed by the start of exactly one pipeline,
    which fills the collection again. *)
Lemma refill_returns_to_cap opts world latency st p rest :
  queue st = p :: rest ->
  NoDup (keys (inProgress st) ++ queue st) ->
  mapSize (inProgress st) + 1 = maxConcurrent opts ->
  let st1 := refill opts world latency (queue st) st in
  inProgress st1 = (inProgress st ++ [(p, promiseOf opts world latency st p)])%list
  /\ queue st1 = rest
  /\ mapSize (inProgress st1) = maxConcurrent opts.
Proof.
  intros Hq Hnd Hsize. cbv zeta. rewrite Hq in *. simpl.
  replace (mapSize (inProgress st) <? maxConcurrent opts) with true
    by (symmetry; apply Z.ltb_lt; lia).
  assert (Hfresh : ~ In p (keys (inProgress st))).
  { apply NoDup_remove_2 in Hnd. intros Hin. apply Hnd.
    apply in_or_app. left. exact Hin. }
  assert (E : inProgress (start opts world latency p rest st)
              = (inProgress st ++ [(p, promiseOf opts world latency st p)])%list).
  { rewrite inProgress_start. apply mapSet_fresh, Hfresh. }
  assert (Hfull : mapSize (inProgress (start opts world latency p rest st))
                  = maxConcurrent opts).
  { rewrite E. unfold mapSize in *. rewrite length_app. simpl. lia. }
  assert (Hstop : refill opts world latency rest (start opts world latency p rest st)
                  = start opts world latency p rest st).
  { destruct rest as [|p' rest']; [reflexivity|].
    cbn [refill]. rewrite Hfull, Z.ltb_irrefl. reflexivity. }
  rewrite Hstop. split; [exact E|]. split; [reflexivity | exact Hfull].
Qed.

Definition capOfTwo : Options :=
  mergeOptions (mkProcessOptions 2 None None None None None None None).

(** C5 on the code, with a cap of 2.  On [a, b, b]: when [a] completes the
    queue holds [b]; a pipeline is started for it, and the collection holds
    1 entry, not 2, with the queue empty.  On [a, a, a]: the inner loop
    starts three pipelines at once while the collection holds 1 entry, and
    one result is yielded for the three paths. *)
Theorem duplicate_paths_miss_the_cap :
  map (fun sn => (sn_kind sn, sn_inFlight sn, sn_pending sn))
    (history (stateOf (processFiles capOfTwo sampleWorld (fun _ => 10)
                         ["a"; "b"; "b"] 0 3)))
  = [ (Started "a", 1, 2%nat); (Started "b", 2, 1%nat);
      (Completed "a", 1, 1%nat); (Started "b", 1, 0%nat);
      (Completed "b", 0, 0%nat) ]
  /\ map (fun sn => (sn_kind sn, sn_inFlight sn, sn_running sn))
       (history (stateOf (processFiles capOfTwo sampleWorld (fun _ => 10)
                            ["a"; "a"; "a"] 0 3)))
     = [ (Started "a", 1, 1%nat); (Started "a", 1, 2%nat);
         (Started "a", 1, 3%nat); (Completed "a", 0, 0%nat) ]
  /\ processFiles capOfTwo sampleWorld (fun _ => 10) ["a"; "a"; "a"] 0 1
     = Done (stateOf (processFiles capOfTwo sampleWorld (fun _ => 10)
                        ["a"; "a"; "a"] 0 3))
  /\ yielded (stateOf (processFiles capOfTwo sampleWorld (fun _ => 10)
                         ["a"; "a"; "a"] 0 3))
     = [ {| path := "a"; content := "a" |} ].
Proof. repeat split. Qed.

(** The same cap on three distinct paths: the collection is back at 2 after
    the first completion. *)
Example distinct_paths_fill_the_cap :
  map (fun sn => (sn_kind sn, sn_inFlight sn, sn_pending sn))
    (history (stateOf (processFiles capOfTwo sampleWorld (fun _ => 10)
                         ["a"; "b"; "c"] 0 3)))
  = [ (Started "a", 1, 2%nat); (Started "b", 2, 1%nat);
      (Completed "a", 1, 1%nat); (Started "c", 2, 0%nat);
      (Completed "b", 1, 0%nat); (Completed "c", 0, 0%nat) ].
Proof. reflexivity. Qed.

(** A cap below 1 and a path to process: the outer loop never ends and
    nothing is ever started. *)
Lemma no_cap_no_end opts world latency p rest t0 fuel :
  maxConcurrent opts <= 0 ->
  processFiles opts world latency (p :: rest) t0 fuel
  = Suspended (initial (p :: rest) t0).
Proof.
  intros Hcap. unfold processFiles.
  induction fuel as [|fuel IH]; [reflexivity|].
  rewrite drain_step by (left; discriminate). cbv zeta. simpl.
  replace (mapSize [] <? maxConcurrent opts) with false
    by (symmetry; apply Z.ltb_ge; unfold mapSize; simpl; lia).
  simpl. exact IH.
Qed.

Lemma no_cap_no_end_witness :
  processFiles (mergeOptions (mkProcessOptions 0 None None None None None None None))
    sampleWorld (fun _ => 10) ["a"; "b"] 0 1000
  = Suspended (initial ["a"; "b"] 0).
Proof.
  apply (no_cap_no_end
           (mergeOptions (mkProcessOptions 0 None None None None None None None))
           sampleWorld (fun _ => 10) "a" ["b"] 0 1000).
  simpl. lia.
Defined.

(** The collection of [a, b, c] under a cap of 2, right after [a] has
    completed: [b] is in flight and [c] waits. *)
Definition afterFirstCompletion : GenState :=
  {| queue := ["c"];
     inProgress := [("b", {| p_id := 1; p_path := "b"; p_settlesAt := 10;
                             p_run := processFileWithRetry capOfTwo "b"
                                        (sampleWorld 1 "b") |})];
     launched := [];
     now := 10;
     yielded := [ {| path := "a"; content := "a" |} ];
     history := [] |}.

Lemma refill_returns_to_cap_witness :
  queue (refill capOfTwo sampleWorld (fun _ => 10) ["c"] afterFirstCompletion) = []
  /\ mapSize (inProgress (refill capOfTwo sampleWorld (fun _ => 10) ["c"]
                            afterFirstCompletion)) = 2.
Proof.
  destruct (refill_returns_to_cap capOfTwo sampleWorld (fun _ => 10)
              afterFirstCompletion "c" []) as (_ & Hq & Hsize).
  - reflexivity.
  - repeat (constructor; [simpl; intuition discriminate|]). constructor.
  - reflexivity.
  - split; [exact Hq | exact Hsize].
Defined.

End GeneratorFacts.

(* ===================================================================== *)
(** * Further properties of the pattern matcher                           *)
(* ===================================================================== *)

Module IgnoreMore.
Import Js JsFacts Ignore IgnoreFacts.

#[local] Arguments Ascii.eqb : simpl never.
#[local] Arguments isWhiteSpace : simpl never.

(** ** [trim] *)

Lemma firstIs_trimStart s : firstIs isWhiteSpace (trimStart s) = false.
Proof.
  induction s as [|c t IH]; simpl; [reflexivity|].
  destruct (isWhiteSpace c) eqn:E; [exact IH|]. simpl. exact E.
Qed.

Lemma firstIs_trimEnd s :
  firstIs isWhiteSpace s = false -> firstIs isWhiteSpace (trimEnd s) = false.
Proof.
  destruct s as [|c t]; simpl; [reflexivity|].
  intros H. rewrite H. simpl. exact H.
Qed.

Lemma lastIs_trimEnd s : lastIs isWhiteSpace (trimEnd s) = false.
Proof.
  induction s as [|c t IH]; simpl; [reflexivity|].
  destruct (isWhiteSpace c && isEmpty (trimEnd t))%bool eqn:E; [reflexivity|].
  destruct (trimEnd t) as [|d u] eqn:T.
  - simpl in *. rewrite andb_true_r in E. exact E.
  - exact IH.
Qed.

Lemma trim_trim s : trim (trim s) = trim s.
Proof.
  unfold trim at 1.
  rewrite trimStart_fixed.
  - apply trimEnd_fixed. unfold trim. apply lastIs_trimEnd.
  - unfold trim. apply firstIs_trimEnd, firstIs_trimStart.
Qed.

Lemma allAre_trimStart f s : allAre f s = true -> allAre f (trimStart s) = true.
Proof.
  induction s as [|c t IH]; simpl; [auto|].
  intros H. destruct (isWhiteSpace c); [|exact H].
  apply andb_prop in H. apply IH, H.
Qed.

Lemma allAre_trimEnd f s : allAre f s = true -> allAre f (trimEnd s) = true.
Proof.
  induction s as [|c t IH]; simpl; [auto|].
  intros H. apply andb_prop in H. destruct H as [Hc Ht].
  destruct (isWhiteSpace c && isEmpty (trimEnd t))%bool; [reflexivity|].
  simpl. rewrite Hc. apply IH, Ht.
Qed.

(** The pieces of [split] hold no separator. *)
Lemma split_pieces sep s :
  Forall (fun piece => allAre (fun c => negb (Ascii.eqb c sep)) piece = true)
    (split sep s).
Proof.
  induction s as [|c t IH]; simpl; [repeat constructor|].
  destruct (Ascii.eqb c sep) eqn:E.
  - constructor; [reflexivity | exact IH].
  - destruct (split sep t) as [|x xs].
    + constructor; [simpl; rewrite E; reflexivity | constructor].
    + inversion IH as [|? ? Hx Hxs]; subst.
      constructor; [simpl; rewrite E, Hx; reflexivity | exact Hxs].
Qed.

(** ** Lines of an ignore file *)

(** Each line that [loadFromFile] hands to [addPatterns] is one line of
    the file: it holds no line feed, is trimmed, is not empty and does not
    begin with [#].  Blank lines and comment lines, indented or not, give
    nothing. *)
Theorem ruleLines_are_rules content line :
  In line (ruleLines content) ->
  line <> ""
  /\ startsWith "#" line = false
  /\ trim line = line
  /\ allAre (fun c => negb (Ascii.eqb c (ascii_of_nat 10))) line = true.
Proof.
  unfold ruleLines. intros H. apply filter_In in H. destruct H as [Hin Hf].
  apply andb_prop in Hf. destruct Hf as [Hne Hc].
  apply negb_true_iff in Hne, Hc.
  apply in_map_iff in Hin. destruct Hin as (raw & <- & Hraw).
  split; [intros E; rewrite E in Hne; discriminate|].
  split; [exact Hc|]. split; [apply trim_trim|].
  pose proof (split_pieces (ascii_of_nat 10) content) as P.
  rewrite Forall_forall in P. specialize (P raw Hraw).
  unfold trim. apply allAre_trimEnd, allAre_trimStart, P.
Qed.

Lemma ruleLines_are_rules_witness :
  "!build/keep.txt" <> ""
  /\ startsWith "#" "!build/keep.txt" = false
  /\ trim "!build/keep.txt" = "!build/keep.txt"
  /\ allAre (fun c => negb (Ascii.eqb c (ascii_of_nat 10))) "!build/keep.txt" = true.
Proof.
  apply (ruleLines_are_rules
           ("# generated" ++ newline ++ "   " ++ newline ++ "  # indented comment"
            ++ newline ++ "  !build/keep.txt  " ++ newline)).
  vm_compute. left. reflexivity.
Defined.

Example ruleLines_example :
  ruleLines ("# generated" ++ newline ++ "   " ++ newline ++ "  # indented comment"
             ++ newline ++ "  !build/keep.txt  " ++ newline ++ "build/")
  = ["!build/keep.txt"; "build/"].
Proof. reflexivity. Qed.

(** ** What a matcher holds *)

(** A rule as [addPattern] builds it under options [o]: the glob is not
    empty and holds no backslash, the case flag is the option's, and the rule
    is a negation only when negation is enabled. *)
Definition ruleOf (o : RequiredOptions) (r : Rule) : Prop :=
  isEmpty (glob (pattern r)) = false
  /\ allAre notBackslash (glob (pattern r)) = true
  /\ caseInsensitive (pattern r) = ignoreCase o
  /\ (negative r = true -> allowNegation o = true).

Lemma rulesOf_ruleOf ig p : Forall (ruleOf (options ig)) (rulesOf ig p).
Proof.
  unfold rulesOf.
  pose proof (noBackslash_normalized ig p) as Hb. unfold normalized in Hb.
  assert (Hn : snd (normalizePattern ig p) = true -> allowNegation (options ig) = true).
  { unfold normalizePattern.
    destruct (allowNegation (options ig)); simpl; [reflexivity|]. discriminate. }
  destruct (normalizePattern ig p) as [n neg]. simpl in *.
  destruct (isEmpty n) eqn:E; constructor; [|constructor].
  repeat split; simpl; auto.
Qed.

Lemma addPatterns_ruleOf ps ig :
  Forall (ruleOf (options ig)) (patterns ig) ->
  Forall (ruleOf (options ig)) (patterns (addPatterns ig ps)).
Proof.
  intros H. rewrite patterns_addPatterns. apply Forall_app. split; [exact H|].
  apply Forall_flat_map. apply Forall_forall. intros p _. apply rulesOf_ruleOf.
Qed.

(** Every rule of a loaded matcher is well formed: no pattern that
    normalizes to the empty string is ever stored, whatever the files hold. *)
Theorem loaded_rules_are_well_formed readTextFile path o :
  Forall (ruleOf (mergeOptions o)) (patterns (loadFromFile readTextFile path o)).
Proof.
  assert (H0 : Forall (ruleOf (mergeOptions o)) (patterns (new o))) by constructor.
  assert (H1 : forall ig ps, options ig = mergeOptions o ->
               Forall (ruleOf (mergeOptions o)) (patterns ig) ->
               options (addPatterns ig ps) = mergeOptions o
               /\ Forall (ruleOf (mergeOptions o)) (patterns (addPatterns ig ps))).
  { intros ig ps Ho H. split; [rewrite options_addPatterns; exact Ho|].
    rewrite <- Ho in *. apply addPatterns_ruleOf, H. }
  unfold loadFromFile.
  set (ig1 := match o_extraPatterns o with
              | Some extra => addPatterns (new o) extra
              | None => new o
              end).
  assert (E1 : options ig1 = mergeOptions o
               /\ Forall (ruleOf (mergeOptions o)) (patterns ig1)).
  { unfold ig1. destruct (o_extraPatterns o); [apply H1; auto | auto]. }
  destruct E1 as [O1 F1].
  destruct (readTextFile path) as [content|]; [|exact F1].
  destruct (H1 ig1 (ruleLines content) O1 F1) as [O2 F2].
  destruct (truthy (o_useGitignore o)); [|exact F2].
  destruct (readTextFile ".gitignore") as [g|]; [|exact F2].
  apply H1; assumption.
Qed.

(** The rule list is append-only: [addPatterns] keeps the rules it finds,
    in place, adds at most one rule per raw pattern after them, and leaves the
    options alone. *)
Theorem addPatterns_appends ig ps :
  exists added,
    patterns (addPatterns ig ps) = (patterns ig ++ added)%list
    /\ (List.length added <= List.length ps)%nat
    /\ options (addPatterns ig ps) = options ig.
Proof.
  exists (flat_map (rulesOf ig) ps).
  split; [apply patterns_addPatterns|]. split; [|apply options_addPatterns].
  induction ps as [|p ps IH]; simpl; [lia|].
  rewrite length_app.
  assert (List.length (rulesOf ig p) <= 1)%nat.
  { unfold rulesOf. destruct (normalizePattern ig p) as [n neg].
    destruct (isEmpty n); simpl; lia. }
  lia.
Qed.

(** ** Verdicts of one-sided rule lists *)

Section OneSided.

Variable test : RegExp -> string -> bool.

Lemma scanRules_positive rules q : forall b,
  Forall (fun r => negative r = false) rules ->
  scanRules test rules q b = (b || existsb (fun r => test (pattern r) q) rules)%bool.
Proof.
  unfold scanRules. induction rules as [|r rules IH]; intros b H; simpl.
  - rewrite orb_false_r. reflexivity.
  - inversion H as [|? ? Hr Hrest]; subst. rewrite (IH _ Hrest), Hr. simpl.
    destruct (test (pattern r) q); simpl; [rewrite orb_true_r|]; reflexivity.
Qed.

Lemma scanRules_negative rules q :
  Forall (fun r => negative r = true) rules ->
  scanRules test rules q false = false.
Proof.
  unfold scanRules. induction rules as [|r rules IH]; intros H; simpl; [reflexivity|].
  inversion H as [|? ? Hr Hrest]; subst. rewrite Hr. simpl.
  destruct (test (pattern r) q); apply IH, Hrest.
Qed.

(** When no rule is a negation, a path is ignored exactly when some rule
    matches it; when every rule is a negation, no path is ignored. *)
Theorem one_sided_rules ig p (b : bool) :
  Forall (fun r => negative r = b) (patterns ig) ->
  shouldIgnore test ig p
  = if b then false
    else existsb (fun r => test (pattern r) (normalized ig p)) (patterns ig).
Proof.
  intros H. unfold shouldIgnore. destruct b.
  - apply scanRules_negative, H.
  - rewrite scanRules_positive by exact H. reflexivity.
Qed.

End OneSided.

Lemma one_sided_rules_witness :
  shouldIgnore literalTest (addPatterns (new noOptions) ["!src"; "!docs"]) "src" = false.
Proof.
  apply (one_sided_rules literalTest (addPatterns (new noOptions) ["!src"; "!docs"])
           "src" true).
  repeat constructor.
Defined.

(** With negation disabled every rule that a matcher adds is positive. *)
Lemma no_negation_rules ig ps :
  allowNegation (options ig) = false ->
  Forall (fun r => negative r = false) (patterns ig) ->
  Forall (fun r => negative r = false) (patterns (addPatterns ig ps)).
Proof.
  intros Hn H. pose proof (addPatterns_ruleOf ps ig) as W.
  rewrite patterns_addPatterns in *. apply Forall_app. split; [exact H|].
  apply Forall_flat_map, Forall_forall. intros q _.
  pose proof (rulesOf_ruleOf ig q) as R.
  eapply Forall_impl; [|exact R]. intros r (_ & _ & _ & Hr).
  destruct (negative r); [|reflexivity]. rewrite Hr in Hn by reflexivity. discriminate.
Qed.

(** ** Separators *)

(** A path as Windows writes it: every [/] is a backslash. *)
Definition backslashChar (c : ascii) : ascii :=
  if Ascii.eqb c slash then backslash else c.

Fixpoint toBackslashes (s : string) : string :=
  match s with
  | EmptyString => EmptyString
  | String c t => String (backslashChar c) (toBackslashes t)
  end.

Lemma isWhiteSpace_backslashChar c : isWhiteSpace (backslashChar c) = isWhiteSpace c.
Proof.
  unfold backslashChar. destruct (Ascii.eqb c slash) eqn:E; [|reflexivity].
  apply Ascii.eqb_eq in E. subst c. reflexivity.
Qed.

Lemma isEmpty_toBackslashes s : isEmpty (toBackslashes s) = isEmpty s.
Proof. destruct s; reflexivity. Qed.

Lemma trimStart_toBackslashes s :
  trimStart (toBackslashes s) = toBackslashes (trimStart s).
Proof.
  induction s as [|c t IH]; simpl; [reflexivity|].
  rewrite isWhiteSpace_backslashChar. destruct (isWhiteSpace c); [exact IH | reflexivity].
Qed.

Lemma trimEnd_toBackslashes s :
  trimEnd (toBackslashes s) = toBackslashes (trimEnd s).
Proof.
  induction s as [|c t IH]; simpl; [reflexivity|].
  rewrite isWhiteSpace_backslashChar, IH, isEmpty_toBackslashes.
  destruct (isWhiteSpace c && isEmpty (trimEnd t))%bool; reflexivity.
Qed.

Lemma replaceBackslashes_toBackslashes s :
  replaceBackslashes (toBackslashes s) = replaceBackslashes s.
Proof.
  induction s as [|c t IH]; simpl; [reflexivity|]. rewrite IH. f_equal.
  unfold backslashChar. destruct (Ascii.eqb c slash) eqn:E.
  - apply Ascii.eqb_eq in E. subst c. reflexivity.
  - reflexivity.
Qed.

Lemma normalizeBody_toBackslashes s :
  normalizeBody (toBackslashes s) = normalizeBody s.
Proof.
  unfold normalizeBody, trim.
  rewrite trimStart_toBackslashes, trimEnd_toBackslashes,
    replaceBackslashes_toBackslashes.
  reflexivity.
Qed.

Lemma startsWith_bang_toBackslashes s :
  startsWith "!" (toBackslashes s) = startsWith "!" s.
Proof.
  destruct s as [|c t]; [reflexivity|]. unfold startsWith. simpl.
  unfold backslashChar. destruct (Ascii.eqb c slash) eqn:E.
  - apply Ascii.eqb_eq in E. subst c. destruct t; reflexivity.
  - destruct (ascii_dec "!" c); destruct t; reflexivity.
Qed.

Lemma normalizePattern_toBackslashes ig p :
  normalizePattern ig (toBackslashes p) = normalizePattern ig p.
Proof.
  unfold normalizePattern. rewrite startsWith_bang_toBackslashes.
  rewrite normalizeBody_toBackslashes.
  destruct p as [|c t]; [reflexivity|].
  change (slice1 (toBackslashes (String c t))) with (toBackslashes t).
  rewrite normalizeBody_toBackslashes. reflexivity.
Qed.

(** A path, or a pattern, written with backslashes is read as the same one
    written with slashes: same verdict, same rule. *)
Theorem separators_do_not_matter test ig p :
  shouldIgnore test ig (toBackslashes p) = shouldIgnore test ig p
  /\ addPattern ig (toBackslashes p) = addPattern ig p.
Proof.
  unfold shouldIgnore, normalized, addPattern.
  rewrite normalizePattern_toBackslashes. split; reflexivity.
Qed.

Example separators_example :
  toBackslashes "src/utils/ignore.ts" = String "s" (String "r" (String "c"
    (String backslash "utils" ++ String backslash "ignore.ts")))
  /\ normalized (new noOptions) (toBackslashes "./src/utils/") = "src/utils".
Proof. split; reflexivity. Qed.

(** ** The secondary ignore file *)

(** [loadFromFile] consults [.gitignore] only when the caller passes
    [useGitignore: true] and the primary file can be read: otherwise the
    matcher it returns is the same whatever [.gitignore] holds, the default
    [useGitignore: true] of [DEFAULT_OPTIONS] notwithstanding. *)
Theorem gitignore_is_not_read fs1 fs2 path o :
  path <> ".gitignore" ->
  (forall p, p <> ".gitignore" -> fs1 p = fs2 p) ->
  truthy (o_useGitignore o) = false \/ fs1 path = None ->
  loadFromFile fs1 path o = loadFromFile fs2 path o.
Proof.
  intros Hp Hfs Hcase. unfold loadFromFile. rewrite <- (Hfs path Hp).
  destruct (fs1 path) as [content|]; [|reflexivity].
  destruct Hcase as [Hg|Hnone]; [|discriminate].
  rewrite Hg. reflexivity.
Qed.

Lemma gitignore_is_not_read_witness :
  loadFromFile
    (fun p => if String.eqb p ".docsignore" then Some "build/" else onlyGitignore p)
    ".docsignore" noOptions
  = loadFromFile
      (fun p => if String.eqb p ".docsignore" then Some "build/" else None)
      ".docsignore" noOptions.
Proof.
  apply (gitignore_is_not_read
           (fun p => if String.eqb p ".docsignore" then Some "build/" else onlyGitignore p)
           (fun p => if String.eqb p ".docsignore" then Some "build/" else None)
           ".docsignore" noOptions).
  - discriminate.
  - intros p Hp. unfold onlyGitignore.
    destruct (String.eqb p ".docsignore"); [reflexivity|].
    destruct (String.eqb p ".gitignore") eqn:E; [|reflexivity].
    apply String.eqb_eq in E. contradiction.
  - left. reflexivity.
Defined.

End IgnoreMore.

(* ===================================================================== *)
(** * Further properties of the tree scanner                              *)
(* ===================================================================== *)

Module ScannerMore.
Import Js Scanner ScannerFacts.

#[local] Arguments Ascii.eqb : simpl never.

Section Walkers.

Variable test : Ignore.RegExp -> string -> bool.

(** An entry that both walkers keep: not ignored, and not rejected by the
    allow-list. *)
Definition kept (ig : Ignore.IgnorePattern) (extensions : list string)
  (e : WalkEntry) : bool :=
  (negb (Ignore.shouldIgnore test ig (e_relative e))
   && negb (rejectedByExtension extensions (e_name e)))%bool.

Lemma filterFiles_filter ig extensions entries : forall files,
  filterFiles test ig extensions entries files
  = (files ++ map e_path (filter (kept ig extensions) entries))%list.
Proof.
  induction entries as [|e rest IH]; intros files; simpl.
  - rewrite app_nil_r. reflexivity.
  - unfold kept at 1.
    destruct (Ignore.shouldIgnore test ig (e_relative e)); simpl; [apply IH|].
    destruct (rejectedByExtension extensions (e_name e)); simpl; [apply IH|].
    rewrite IH, <- app_assoc. reflexivity.
Qed.

(** What [scanDirectory] pushes for an entry, when [Deno.stat] resolves. *)
Definition scannedOf (e : WalkEntry) : option ScannedFile :=
  option_map
    (fun sz => {| path := e_path e; relativePath := e_relative e; size := sz;
                  extension := extensionOf (e_name e) |})
    (e_size e).

Fixpoint allSome {A : Type} (l : list (option A)) : option (list A) :=
  match l with
  | [] => Some []
  | None :: _ => None
  | Some x :: rest => option_map (cons x) (allSome rest)
  end.

Lemma scanEntries_is_filter ig extensions entries : forall files,
  scanEntries test ig extensions entries files
  = option_map (app files)
      (allSome (map scannedOf (filter (kept ig extensions) entries))).
Proof.
  induction entries as [|e rest IH]; intros files; simpl.
  - rewrite app_nil_r. reflexivity.
  - unfold kept at 1.
    destruct (Ignore.shouldIgnore test ig (e_relative e)); simpl; [apply IH|].
    destruct (rejectedByExtension extensions (e_name e)); simpl; [apply IH|].
    unfold scannedOf at 1. destruct (e_size e) as [sz|]; simpl; [|reflexivity].
    rewrite IH.
    destruct (allSome (map scannedOf (filter (kept ig extensions) rest))); simpl;
      [rewrite <- app_assoc|]; reflexivity.
Qed.

Lemma allSome_paths entries : forall files,
  allSome (map scannedOf entries) = Some files ->
  map path files = map e_path entries.
Proof.
  induction entries as [|e rest IH]; intros files; simpl.
  - intros [= <-]. reflexivity.
  - unfold scannedOf at 1. destruct (e_size e) as [sz|]; simpl; [|discriminate].
    destruct (allSome (map scannedOf rest)) as [fs|]; simpl; [|discriminate].
    intros [= <-]. simpl. rewrite (IH fs eq_refl). reflexivity.
Qed.

Lemma allSome_None entries :
  allSome (map scannedOf entries) = None <-> exists e, In e entries /\ e_size e = None.
Proof.
  induction entries as [|e rest IH]; simpl.
  - split; [discriminate | intros (e & [] & _)].
  - unfold scannedOf at 1. destruct (e_size e) as [sz|] eqn:E; simpl.
    + destruct (allSome (map scannedOf rest)) as [fs|]; simpl.
      * split; [discriminate|]. intros (e' & [<-|Hin] & He'); [congruence|].
        exfalso. assert (X : Some fs = None) by (apply IH; eauto). discriminate.
      * split; [|reflexivity]. intros _.
        destruct (proj1 IH eq_refl) as (e' & Hin & He'). eauto.
    + split; [|reflexivity]. intros _. exists e. auto.
Qed.

(** [filterFiles] returns the paths of the kept entries, in the order of
    the walk.  The scan rejects exactly when [Deno.stat] fails on an entry
    that both filters keep (an ignored or filtered-out entry is never
    stat'ed); otherwise it returns one record per kept entry, whose paths are
    those [filterFiles] returns for the same matcher and allow-list. *)
Theorem scan_agrees_with_filterFiles ig extensions entries :
  filterFiles test ig extensions entries []
  = map e_path (filter (kept ig extensions) entries)
  /\ (scanEntries test ig extensions entries [] = None
      <-> exists e, In e entries /\ kept ig extensions e = true /\ e_size e = None)
  /\ forall files,
      scanEntries test ig extensions entries [] = Some files ->
      map path files = filterFiles test ig extensions entries []
      /\ Forall (fun f => exists e,
                   In e entries /\ kept ig extensions e = true
                   /\ scannedOf e = Some f) files.
Proof.
  rewrite scanEntries_is_filter, filterFiles_filter. simpl.
  split; [reflexivity|]. split.
  - destruct (allSome (map scannedOf (filter (kept ig extensions) entries)))
      as [fs|] eqn:E; simpl.
    + split; [discriminate|]. intros (e & Hin & Hk & Hs).
      assert (N : allSome (map scannedOf (filter (kept ig extensions) entries)) = None).
      { apply allSome_None. exists e. split; [|exact Hs].
        apply filter_In. auto. }
      congruence.
    + split; [|reflexivity]. intros _. apply allSome_None in E.
      destruct E as (e & Hin & Hs). apply filter_In in Hin. destruct Hin. eauto.
  - intros files H.
    destruct (allSome (map scannedOf (filter (kept ig extensions) entries)))
      as [fs|] eqn:E; simpl in H; [|discriminate].
    injection H as <-. split; [apply allSome_paths, E|].
    clear - E. revert fs E.
    induction entries as [|e rest IH]; simpl; intros fs E.
    + injection E as <-. constructor.
    + destruct (kept ig extensions e) eqn:K.
      * simpl in E. destruct (scannedOf e) as [f|] eqn:S; [|discriminate].
        destruct (allSome (map scannedOf (filter (kept ig extensions) rest)))
          as [fs'|]; simpl in E; [|discriminate].
        injection E as <-. constructor.
        -- exists e. auto.
        -- eapply Forall_impl; [|apply (IH fs' eq_refl)].
           intros f' (e' & Hin & Hk & Hs). exists e'. auto.
      * eapply Forall_impl; [|apply (IH fs E)].
        intros f' (e' & Hin & Hk & Hs). exists e'. auto.
Qed.

End Walkers.

(** ** The shape of an extension *)

Lemma pop_In l x : pop l = Some x -> In x l.
Proof.
  induction l as [|y l IH]; simpl; [discriminate|].
  destruct l as [|z l']; [intros [= ->]; auto|].
  intros H. right. apply IH, H.
Qed.

Lemma lowerChar_not_dot c :
  Ascii.eqb (lowerChar c) "."%char = Ascii.eqb c "."%char.
Proof.
  destruct c as [[] [] [] [] [] [] [] []]; reflexivity.
Qed.

Lemma lowerChar_lowerChar c : lowerChar (lowerChar c) = lowerChar c.
Proof.
  destruct c as [[] [] [] [] [] [] [] []]; reflexivity.
Qed.

Lemma allAre_toLowerCase s :
  allAre (notSep "."%char) (toLowerCase s) = allAre (notSep "."%char) s.
Proof.
  induction s as [|c t IH]; simpl; [reflexivity|].
  unfold notSep at 1 3. rewrite lowerChar_not_dot, IH. reflexivity.
Qed.

Lemma toLowerCase_toLowerCase s : toLowerCase (toLowerCase s) = toLowerCase s.
Proof.
  induction s as [|c t IH]; simpl; [reflexivity|].
  rewrite lowerChar_lowerChar, IH. reflexivity.
Qed.

Lemma extensionOf_shape name :
  allAre (notSep "."%char) (extensionOf name) = true
  /\ toLowerCase (extensionOf name) = extensionOf name.
Proof.
  rewrite extensionOf_pop.
  destruct (pop (split "." name)) as [s|] eqn:E; [|split; reflexivity].
  split; [|apply toLowerCase_toLowerCase].
  rewrite allAre_toLowerCase.
  pose proof (IgnoreMore.split_pieces "."%char name) as P.
  rewrite Forall_forall in P. exact (P s (pop_In _ _ E)).
Qed.

(** The computed extension never holds a dot and is in lower case.  So an
    allow-list whose entries all hold a dot (as in [.ts]) or a capital (as in
    [TS]) rejects every file. *)
Theorem misspelt_allow_list_rejects_all extensions name :
  extensions <> [] ->
  (forall x, In x extensions ->
             allAre (notSep "."%char) x = false \/ toLowerCase x <> x) ->
  allAre (notSep "."%char) (extensionOf name) = true
  /\ toLowerCase (extensionOf name) = extensionOf name
  /\ rejectedByExtension extensions name = true.
Proof.
  intros Hne Hbad. destruct (extensionOf_shape name) as [Hd Hl].
  split; [exact Hd|]. split; [exact Hl|].
  unfold rejectedByExtension, includes. apply andb_true_iff. split.
  - destruct extensions; [congruence | reflexivity].
  - apply negb_true_iff.
    destruct (existsb (String.eqb (extensionOf name)) extensions) eqn:E; [|reflexivity].
    exfalso. apply existsb_exists in E. destruct E as (x & Hin & Hx).
    apply String.eqb_eq in Hx. subst x.
    destruct (Hbad _ Hin) as [H|H]; congruence.
Qed.

Lemma misspelt_allow_list_rejects_all_witness :
  allAre (notSep "."%char) (extensionOf "main.ts") = true
  /\ toLowerCase (extensionOf "main.ts") = extensionOf "main.ts"
  /\ rejectedByExtension [".ts"; "TS"] "main.ts" = true.
Proof.
  apply (misspelt_allow_list_rejects_all [".ts"; "TS"] "main.ts").
  - discriminate.
  - intros x [<-|[<-|[]]]; [left; reflexivity | right; discriminate].
Defined.

End ScannerMore.

(* ===================================================================== *)
(** * Further properties of the per-file pipeline                         *)
(* ===================================================================== *)

Module PipelineMore.
Import Processor PipelineFacts.

Lemma append_assoc (a b c : string) : ((a ++ b) ++ c = a ++ (b ++ c))%string.
Proof. induction a as [|x a IH]; simpl; [reflexivity|]. rewrite IH. reflexivity. Qed.

(** ** Reading *)

(** The bytes and the text that one read returns. *)
Definition bytesOf (s : ReadStep) : Z :=
  match rs_read s with Chunk n _ => n | ReadThrows _ => 0 end.

Definition textOf (s : ReadStep) : string :=
  match rs_read s with Chunk _ t => t | ReadThrows _ => "" end.

Definition textOfAll (steps : list ReadStep) : string :=
  fold_right append "" (map textOf steps).

Definition bytesOfAll (steps : list ReadStep) : Z :=
  fold_right Z.add 0 (map bytesOf steps).

(** The [bytesRead] of the progress updates among some effects, in order. *)
Fixpoint progressBytes (es : list Effect) : list Z :=
  match es with
  | [] => []
  | SendUpdate u :: rest =>
      match data u with
      | DataProgress p => bytesRead p :: progressBytes rest
      | _ => progressBytes rest
      end
  | _ :: rest => progressBytes rest
  end.

Section Reading.

Variable opts : Options.

Lemma bytesOfAll_nonneg steps :
  Forall (fun s => 0 <= bytesOf s) steps -> 0 <= bytesOfAll steps.
Proof.
  unfold bytesOfAll. induction 1 as [|s rest Hs _ IH]; simpl; lia.
Qed.

Lemma append_empty (s : string) : (s ++ "")%string = s.
Proof. induction s as [|x s IH]; simpl; [reflexivity|]. rewrite IH. reflexivity. Qed.

Lemma readLoop_spec path total ab steps : forall content bytes last,
  Forall (fun s => 0 <= bytesOf s) steps ->
  let es := fst (readLoop opts path total ab steps content bytes last) in
  let r := snd (readLoop opts path total ab steps content bytes last) in
  StronglySorted Z.le (progressBytes es)
  /\ Forall (fun b => bytes <= b <= bytes + bytesOfAll steps) (progressBytes es)
  /\ (List.length (progressBytes es) <= List.length steps)%nat
  /\ forall c, r = Returned c -> c = (content ++ textOfAll steps)%string.
Proof.
  induction steps as [|s rest IH]; intros content bytes last Hpos; cbv zeta.
  - simpl. destruct ab; simpl; repeat split; try constructor; try lia.
    + discriminate.
    + intros c [= <-]. unfold textOfAll. simpl. rewrite append_empty. reflexivity.
  - inversion Hpos as [|? ? Hs Hrest]; subst.
    pose proof (bytesOfAll_nonneg rest Hrest) as Hsum.
    change (bytesOfAll (s :: rest)) with (bytesOf s + bytesOfAll rest).
    change (textOfAll (s :: rest)) with (textOf s ++ textOfAll rest)%string.
    cbn [readLoop]. destruct (rs_aborted s).
    { simpl. repeat split; try constructor; try lia. discriminate. }
    unfold bytesOf, textOf in *.
    destruct (rs_read s) as [chunk text|e].
    2:{ simpl. repeat split; try constructor; try lia. discriminate. }
    destruct (progressInterval opts <=? rs_now s - last).
    + specialize (IH (content ++ text)%string (bytes + chunk) (rs_now s) Hrest).
      cbv zeta in IH.
      destruct (readLoop opts path total ab rest (content ++ text) (bytes + chunk)
                  (rs_now s)) as [es r].
      cbn [fst snd progressBytes progressUpdate data bytesRead List.length] in *.
      destruct IH as (Hsort & Hbound & Hlen & Hret).
      split; [|split; [|split]].
      * constructor; [exact Hsort|].
        eapply Forall_impl; [|exact Hbound]. intros b Hb. simpl in Hb. lia.
      * constructor; [lia|].
        eapply Forall_impl; [|exact Hbound]. intros b Hb. simpl in Hb. lia.
      * lia.
      * intros c Hc. rewrite (Hret c Hc). apply append_assoc.
    + specialize (IH (content ++ text)%string (bytes + chunk) last Hrest).
      cbv zeta in IH. destruct IH as (Hsort & Hbound & Hlen & Hret).
      split; [exact Hsort|]. split; [|split].
      * eapply Forall_impl; [|exact Hbound]. intros b Hb. simpl in Hb. lia.
      * cbn [List.length]. lia.
      * intros c Hc. rewrite (Hret c Hc). apply append_assoc.
Qed.

(** A read that returns, returns the texts of the chunks in order; the
    progress updates of a read, finished or not, report byte counts that never
    decrease and never exceed what the reads returned, at most one update per
    chunk. *)
Theorem read_returns_all_chunks path a :
  Forall (fun s => 0 <= bytesOf s) (at_steps a) ->
  let es := fst (readFileWithProgress opts path a) in
  let r := snd (readFileWithProgress opts path a) in
  StronglySorted Z.le (progressBytes es)
  /\ Forall (fun b => 0 <= b <= bytesOfAll (at_steps a)) (progressBytes es)
  /\ (List.length (progressBytes es) <= List.length (at_steps a))%nat
  /\ forall c, r = Returned c -> c = textOfAll (at_steps a).
Proof.
  intros Hpos. cbv zeta. unfold readFileWithProgress.
  destruct (at_open a); simpl.
  { repeat split; try constructor; try lia. discriminate. }
  destruct (at_fstat a) as [e|total]; simpl.
  { repeat split; try constructor; try lia. discriminate. }
  exact (readLoop_spec path total (at_abortedAtEnd a) (at_steps a) "" 0 (at_start a)
           Hpos).
Qed.

End Reading.

(** Three chunks, a progress interval of one second: the second and third
    chunks come late enough to be reported. *)
Definition threeChunks : Attempt :=
  {| at_stat := StatInfo true 11; at_open := None; at_fstat := inr 11;
     at_start := 0;
     at_steps := [ {| rs_aborted := false; rs_read := Chunk 4 "beta"; rs_now := 300 |};
                   {| rs_aborted := false; rs_read := Chunk 3 "max"; rs_now := 1200 |};
                   {| rs_aborted := false; rs_read := Chunk 4 "imum"; rs_now := 2500 |} ];
     at_abortedAtEnd := false |}.

Lemma read_returns_all_chunks_witness :
  progressBytes (fst (readFileWithProgress DEFAULT_OPTIONS "f.txt" threeChunks)) = [7; 11]
  /\ snd (readFileWithProgress DEFAULT_OPTIONS "f.txt" threeChunks)
     = Returned "betamaximum"
  /\ StronglySorted Z.le
       (progressBytes (fst (readFileWithProgress DEFAULT_OPTIONS "f.txt" threeChunks))).
Proof.
  split; [reflexivity|]. split; [reflexivity|].
  apply (read_returns_all_chunks DEFAULT_OPTIONS "f.txt" threeChunks).
  repeat constructor; discriminate.
Defined.

(** ** Recovery *)

Section Retrying.

Variable opts : Options.

Lemma delaysOf_failing_prefix path script : forall j n,
  Z.of_nat (n + j) <= maxRetries opts ->
  delaysOf (failingEffects opts path script n j)
  = map (fun k => retryDelay opts * Z.of_nat k) (seq (S n) j).
Proof.
  unfold failingEffects.
  induction j as [|j IH]; intros n Hn; [reflexivity|].
  cbn [seq flat_map]. rewrite !delaysOf_app.
  rewrite (delaysOf_attemptEffects _ (attempt_effects opts path (script n))).
  rewrite IH by lia. unfold waitAfter.
  replace (Z.of_nat (S n) <=? maxRetries opts) with true
    by (symmetry; apply Z.leb_le; lia).
  reflexivity.
Qed.

Lemma retryLoop_recovers path script errs c : forall j n lastError fuel,
  (forall m, (n <= m < n + j)%nat ->
             snd (attempt opts path (script m)) = Threw (errs m)) ->
  snd (attempt opts path (script (n + j)%nat)) = Returned c ->
  Z.of_nat (n + j) <= maxRetries opts ->
  (j < fuel)%nat ->
  retryLoop opts fuel path script (Z.of_nat n) lastError n
  = Some {| effects :=
              failingEffects opts path script n j
              ++ fst (attempt opts path (script (n + j)%nat));
            attempts := S (n + j);
            outcome := Fulfilled c |}.
Proof.
  induction j as [|j IH]; intros n last fuel Hfail Hok HR Hfuel;
    (destruct fuel as [|fuel]; [lia|]); cbn [retryLoop];
    (replace (Z.of_nat n <=? maxRetries opts) with true
      by (symmetry; apply Z.leb_le; lia)).
  - rewrite Nat.add_0_r in *.
    destruct (attempt opts path (script n)) as [es r]. simpl in Hok. subst r.
    reflexivity.
  - pose proof (Hfail n ltac:(lia)) as Hn.
    destruct (attempt opts path (script n)) as [es r] eqn:Ea. simpl in Hn. subst r.
    replace (Z.of_nat n + 1) with (Z.of_nat (S n)) by lia.
    rewrite (IH (S n) (Some (errs n)) fuel).
    + simpl option_map. unfold before. cbn [effects attempts outcome].
      f_equal. f_equal; [|lia].
      replace (S (n + j)) with (n + S j)%nat by lia.
      unfold failingEffects. cbn [seq flat_map]. rewrite Ea. cbn [fst].
      rewrite <- !app_assoc. reflexivity.
    + intros m Hm. apply Hfail. lia.
    + replace (S n + j)%nat with (n + S j)%nat by lia. exact Hok.
    + lia.
    + lia.
Qed.

(** A path whose first [k] attempts throw and whose next attempt reads the
    file, with [k <= maxRetries]: the promise fulfils with that content after
    [k + 1] attempts, and the waits before it are [retryDelay * 1], ...,
    [retryDelay * k]. *)
Theorem retry_recovers path script errs k c :
  Z.of_nat k <= maxRetries opts ->
  (forall m, (m < k)%nat -> snd (attempt opts path (script m)) = Threw (errs m)) ->
  snd (attempt opts path (script k)) = Returned c ->
  exists run,
    processFileWithRetry opts path script = Some run
    /\ outcome run = Fulfilled c
    /\ attempts run = S k
    /\ delaysOf (effects run)
       = map (fun j => retryDelay opts * Z.of_nat j) (seq 1 k)
    /\ effects run
       = (failingEffects opts path script 0 k
          ++ fst (attempt opts path (script k)))%list.
Proof.
  intros HR Hfail Hok. unfold processFileWithRetry.
  pose proof (retryLoop_recovers path script errs c k 0 None
                (Z.to_nat (maxRetries opts + 1))) as E.
  simpl in E. rewrite E; try assumption; try lia.
  - eexists. split; [reflexivity|]. cbn [effects attempts outcome].
    repeat split.
    rewrite delaysOf_app, delaysOf_failing_prefix by (simpl; lia).
    rewrite (delaysOf_attemptEffects _ (attempt_effects opts path (script k))).
    apply app_nil_r.
  - intros m Hm. apply Hfail. lia.
Qed.

End Retrying.

(** A file that appears while the pipeline waits: two attempts do not find
    it, the third reads it. *)
Definition lateFile (n : nat) : Attempt :=
  if Nat.ltb n 2 then missingFile else GeneratorFacts.textFile "late".

Lemma retry_recovers_witness :
  exists run,
    processFileWithRetry DEFAULT_OPTIONS "late.ts" lateFile = Some run
    /\ outcome run = Fulfilled "late"
    /\ attempts run = 3%nat
    /\ delaysOf (effects run) = [1000; 2000].
Proof.
  destruct (retry_recovers DEFAULT_OPTIONS "late.ts" lateFile
              (fun _ => JsError "File not found: late.ts") 2 "late")
    as (run & Hrun & Hout & Hatt & Hdel & _).
  - simpl. lia.
  - intros [|[|m]] Hm; [reflexivity | reflexivity | lia].
  - reflexivity.
  - exists run. repeat split; assumption.
Defined.

(** ** Accounting *)


Section Accounting.

Variable opts : Options.





End Accounting.

End PipelineMore.

(* ===================================================================== *)
(** * Further properties of the generator                                 *)
(* ===================================================================== *)

Module GeneratorMore.
Import Processor PipelineFacts GeneratorFacts.

Lemma drain_Done_idle opts world latency : forall fuel st st',
  drain opts world latency fuel st = Done st' ->
  queue st' = [] /\ inProgress st' = [].
Proof.
  induction fuel as [|fuel IH]; intros st st' H.
  - destruct (idle_or_busy st) as [[Hq Hm]|Hbusy].
    + rewrite drain_done in H by assumption. injection H as <-. auto.
    + rewrite drain_zero in H by assumption. discriminate.
  - destruct (idle_or_busy st) as [[Hq Hm]|Hbusy].
    + rewrite drain_done in H by assumption. injection H as <-. auto.
    + rewrite (drain_step opts world latency fuel st Hbusy) in H. cbv zeta in H.
      destruct (inProgress (refill opts world latency (queue st) st))
        as [|[p promise] rest]; [exact (IH _ _ H)|].
      destruct (p_run promise); [exact (IH _ _ H) | discriminate].
Qed.

(** An invariant of the two loops passes from a state to the state a run
    stops in. *)
Lemma drain_invariant opts world latency (I : GenState -> Prop) :
  (forall st p rest, I st -> queue st = p :: rest ->
                     mapSize (inProgress st) < maxConcurrent opts ->
                     I (start opts world latency p rest st)) ->
  (forall st p promise rest r, I st -> inProgress st = (p, promise) :: rest ->
                               p_run promise = Some r ->
                               I (complete p promise (outcome r) st)) ->
  forall fuel st, I st -> I (stateOf (drain opts world latency fuel st)).
Proof.
  intros Hstart Hcomplete.
  assert (Hrefill : forall q st, queue st = q -> I st ->
                                 I (refill opts world latency q st)).
  { induction q as [|p rest IHq]; intros st Hq Hst; simpl; [exact Hst|].
    destruct (mapSize (inProgress st) <? maxConcurrent opts) eqn:E; [|exact Hst].
    apply Z.ltb_lt in E. apply IHq; [reflexivity|]. apply Hstart; assumption. }
  induction fuel as [|fuel IH]; intros st Hst.
  - destruct (idle_or_busy st) as [[Hq Hm]|Hbusy].
    + rewrite drain_done by assumption. exact Hst.
    + rewrite drain_zero by assumption. exact Hst.
  - destruct (idle_or_busy st) as [[Hq Hm]|Hbusy].
    + rewrite drain_done by assumption. exact Hst.
    + rewrite (drain_step opts world latency fuel st Hbusy). cbv zeta.
      pose proof (Hrefill (queue st) st eq_refl Hst) as H1.
      destruct (inProgress (refill opts world latency (queue st) st))
        as [|[p promise] rest] eqn:E; [apply IH, H1|].
      destruct (p_run promise) as [r|] eqn:Er; [|exact H1].
      apply IH. eapply Hcomplete; eassumption.
Qed.

(** ** One pipeline per input path *)

Section Started.

Variable opts : Options.
Variable world : nat -> string -> nat -> Attempt.

(** The pipelines of [paths], numbered from [id] on. *)
Fixpoint pipelinesFor (id : nat) (paths : list string)
  : list (nat * string * option PipelineRun) :=
  match paths with
  | [] => []
  | p :: rest =>
      (id, p, processFileWithRetry opts p (world id p)) :: pipelinesFor (S id) rest
  end.

Definition metaOf (pr : Promise) : nat * string * option PipelineRun :=
  (p_id pr, p_path pr, p_run pr).

(** The pipelines started so far and the queue make up the input. *)
Definition accounted (files : list string) (st : GenState) : Prop :=
  (map metaOf (launched st)
   ++ pipelinesFor (List.length (launched st)) (queue st))%list
  = pipelinesFor 0 files.

Lemma paths_of_pipelinesFor paths : forall id,
  map (fun m => snd (fst m)) (pipelinesFor id paths) = paths.
Proof.
  induction paths as [|p rest IH]; intros id; simpl; [reflexivity|].
  rewrite IH. reflexivity.
Qed.

Lemma nth_pipelinesFor paths : forall base i m,
  nth_error (pipelinesFor base paths) i = Some m ->
  fst (fst m) = (base + i)%nat
  /\ nth_error paths i = Some (snd (fst m))
  /\ snd m = processFileWithRetry opts (snd (fst m))
               (world (base + i)%nat (snd (fst m))).
Proof.
  induction paths as [|p rest IH]; intros base i m M.
  - destruct i; discriminate.
  - destruct i as [|i]; simpl in M.
    + injection M as <-. simpl. rewrite Nat.add_0_r. auto.
    + destruct (IH (S base) i m M) as (H1 & H2 & H3).
      rewrite Nat.add_succ_r. simpl in *. auto.
Qed.

Lemma drain_accounted latency files : forall fuel st,
  accounted files st ->
  accounted files (stateOf (drain opts world latency fuel st)).
Proof.
  apply drain_invariant.
  - intros st p rest H Hq _. unfold accounted in *.
    rewrite launched_start, queue_start, map_app, length_app, <- app_assoc.
    rewrite Hq in H. simpl in *. rewrite Nat.add_1_r. exact H.
  - intros st p promise rest r H _ _. exact H.
Qed.

(** Every input path, a repeated one too, gets a pipeline of its own, and
    the pipelines are started in input order: at any point of a run the paths
    of the pipelines started, followed by the queue, are the input list; the
    [i]-th pipeline started runs [processFileWithRetry] on the [i]-th path;
    and a run that has ended has started one pipeline per path. *)
Theorem one_pipeline_per_path latency files t0 fuel :
  let st := stateOf (processFiles opts world latency files t0 fuel) in
  (map p_path (launched st) ++ queue st)%list = files
  /\ (forall i pr, nth_error (launched st) i = Some pr ->
        p_id pr = i
        /\ nth_error files i = Some (p_path pr)
        /\ p_run pr = processFileWithRetry opts (p_path pr) (world i (p_path pr)))
  /\ (isDone (processFiles opts world latency files t0 fuel) = true ->
      map p_path (launched st) = files).
Proof.
  cbv zeta. unfold processFiles.
  pose proof (drain_accounted latency files fuel (initial files t0) eq_refl) as A.
  unfold accounted in A.
  set (st := stateOf (drain opts world latency fuel (initial files t0))) in *.
  assert (P : (map p_path (launched st) ++ queue st)%list = files).
  { apply (f_equal (map (fun m => snd (fst m)))) in A.
    rewrite map_app, map_map, !paths_of_pipelinesFor in A. exact A. }
  split; [exact P|]. split.
  - intros i pr Hi.
    assert (M : nth_error (pipelinesFor 0 files) i = Some (metaOf pr)).
    { rewrite <- A. rewrite nth_error_app1.
      - rewrite nth_error_map, Hi. reflexivity.
      - rewrite length_map. apply nth_error_Some. congruence. }
    exact (nth_pipelinesFor files 0 i (metaOf pr) M).
  - intros Hdone.
    destruct (drain opts world latency fuel (initial files t0)) as [st'|st'] eqn:E;
      [|discriminate].
    destruct (drain_Done_idle opts world latency _ _ _ E) as [Hq _].
    simpl in st. subst st. rewrite Hq, app_nil_r in P. exact P.
Qed.

End Started.

(** ** The statistics of a whole run *)










Section WholeRun.

Variable opts : Options.
Variable world : nat -> string -> nat -> Attempt.











End WholeRun.






(** ** Pairwise distinct paths: the cap bounds the running pipelines *)

Section Tidy.

Variable opts : Options.
Variable world : nat -> string -> nat -> Attempt.
Variable latency : nat -> Z.

(** The pipelines started are those that have been awaited, which have
    settled, followed by those of the collection, in its order. *)
Definition tidy (st : GenState) : Prop :=
  NoDup (keys (inProgress st) ++ queue st)
  /\ (exists finished,
        launched st = (finished ++ map snd (inProgress st))%list
        /\ Forall (fun p => p_settlesAt p <= now st) finished)
  /\ Forall (fun sn => Z.of_nat (sn_running sn) <= sn_inFlight sn) (history st).

Lemma running_le st finished :
  launched st = (finished ++ map snd (inProgress st))%list ->
  Forall (fun p => p_settlesAt p <= now st) finished ->
  Z.of_nat (running st) <= mapSize (inProgress st).
Proof.
  intros Hl Hf. unfold running, mapSize. rewrite Hl, filter_app, length_app.
  assert (E : filter (isRunning (now st)) finished = []).
  { clear Hl. induction Hf as [|p l Hp _ IH]; simpl; [reflexivity|].
    unfold isRunning at 1.
    replace (now st <? p_settlesAt p) with false
      by (symmetry; apply Z.ltb_ge; exact Hp).
    exact IH. }
  rewrite E. simpl.
  pose proof (filter_length_le (isRunning (now st)) (map snd (inProgress st))) as H.
  rewrite length_map in H. lia.
Qed.

Lemma tidy_start st p rest :
  tidy st -> queue st = p :: rest -> tidy (start opts world latency p rest st).
Proof.
  intros (Hnd & (finished & Hl & Hf) & Hh) Hq. rewrite Hq in Hnd.
  assert (Hfresh : ~ In p (keys (inProgress st))).
  { apply NoDup_remove_2 in Hnd. intros Hin. apply Hnd.
    apply in_or_app. left. exact Hin. }
  assert (Em : inProgress (start opts world latency p rest st)
               = (inProgress st ++ [(p, promiseOf opts world latency st p)])%list).
  { rewrite inProgress_start. apply mapSet_fresh, Hfresh. }
  assert (El : launched (start opts world latency p rest st)
               = (finished ++ map snd (inProgress (start opts world latency p rest st)))%list).
  { rewrite launched_start, Em, Hl, map_app, <- app_assoc. reflexivity. }
  split; [|split].
  - rewrite Em, queue_start, keys_app, <- app_assoc. exact Hnd.
  - exists finished. split; [exact El | exact Hf].
  - change (history (start opts world latency p rest st))
      with (history st ++ [snapshot (Started p)
                             (start opts world latency p rest st)])%list.
    apply Forall_app. split; [exact Hh|]. constructor; [|constructor].
    apply (running_le _ finished El). exact Hf.
Qed.

Lemma tidy_complete st p promise rest v :
  tidy st -> inProgress st = (p, promise) :: rest ->
  tidy (complete p promise v st).
Proof.
  intros (Hnd & (finished & Hl & Hf) & Hh) Hm.
  assert (Em : inProgress (complete p promise v st) = rest).
  { rewrite inProgress_complete, Hm. apply mapDelete_head. }
  assert (El : launched (complete p promise v st)
               = ((finished ++ [promise])
                    ++ map snd (inProgress (complete p promise v st)))%list).
  { rewrite launched_complete, Em, Hl, Hm, <- app_assoc. reflexivity. }
  assert (Hf' : Forall (fun q => p_settlesAt q <= now (complete p promise v st))
                  (finished ++ [promise])).
  { change (now (complete p promise v st))
      with (Z.max (now st) (p_settlesAt promise)).
    apply Forall_app. split.
    - apply (Forall_impl _ (P := fun q => p_settlesAt q <= now st)); [|exact Hf].
      intros q Hq. lia.
    - constructor; [lia | constructor]. }
  split; [|split].
  - rewrite Em, queue_complete. rewrite Hm in Hnd. simpl in Hnd.
    apply NoDup_cons_iff in Hnd. exact (proj2 Hnd).
  - exists (finished ++ [promise])%list. split; [exact El | exact Hf'].
  - change (history (complete p promise v st))
      with (history st ++ [snapshot (Completed p) (complete p promise v st)])%list.
    apply Forall_app. split; [exact Hh|]. constructor; [|constructor].
    apply (running_le _ (finished ++ [promise])%list El). exact Hf'.
Qed.

Lemma drain_tidy : forall fuel st,
  tidy st -> tidy (stateOf (drain opts world latency fuel st)).
Proof.
  apply (drain_invariant opts world latency tidy).
  - intros st p rest H Hq _. apply tidy_start; assumption.
  - intros st p promise rest r H Hm _. apply (tidy_complete st p promise rest); assumption.
Qed.

End Tidy.

(** For pairwise distinct input paths the cap bounds the work, not only the
    collection: at every statement that changes the collection, the pipelines
    started and not yet settled are at most the entries of the collection,
    which are at most [maxConcurrent]. *)
Theorem running_within_cap opts world latency files t0 fuel :
  NoDup files ->
  Forall (fun sn => Z.of_nat (sn_running sn) <= sn_inFlight sn
                    /\ sn_inFlight sn <= Z.max (maxConcurrent opts) 0)
    (history (stateOf (processFiles opts world latency files t0 fuel))).
Proof.
  intros Hnd. unfold processFiles.
  assert (Ht : tidy (initial files t0)).
  { split; [exact Hnd|]. split; [|constructor].
    exists []. split; [reflexivity | constructor]. }
  assert (Hc : withinCap opts (initial files t0)).
  { split; [change (0 <= Z.max (maxConcurrent opts) 0); lia | constructor]. }
  destruct (drain_tidy opts world latency fuel _ Ht) as (_ & _ & H1).
  destruct (drain_withinCap opts world latency fuel _ Hc) as [_ H2].
  revert H1 H2.
  induction (history (stateOf (drain opts world latency fuel (initial files t0))))
    as [|sn l IH]; intros H1 H2; [constructor|].
  inversion H1; inversion H2; subst. constructor; [split; assumption | auto].
Qed.

Lemma running_within_cap_witness :
  Forall (fun sn => Z.of_nat (sn_running sn) <= sn_inFlight sn
                    /\ sn_inFlight sn <= Z.max (maxConcurrent capOfTwo) 0)
    (history (stateOf (processFiles capOfTwo sampleWorld (fun _ => 10)
                         ["a"; "b"; "c"] 0 3))).
Proof.
  apply (running_within_cap capOfTwo sampleWorld (fun _ => 10) ["a"; "b"; "c"] 0 3).
  repeat (constructor; [simpl; intuition discriminate|]). constructor.
Defined.

End GeneratorMore.
